(** * GrammarMaster: the quiz session controller of [App.tsx]

    A shallow embedding of the session logic of the single-page grammar quiz
    (the [App] component, its handlers, its timer effect and the conditional
    rendering that decides which handler a view offers), of [shuffleArray],
    and of the data model of [types.ts]. *)

From Stdlib Require Import ZArith Lia Floats Ascii.
From stdpp Require Import base tactics option list strings pretty.

Local Open Scope Z_scope.

(** ** Data model ([types.ts])

    Fields keep their names, except where two interfaces share one: the [id]
    and [text] of an option are [opt_id] and [opt_text], the [id] of a
    question is [q_id], and the [selectedOptionId] of an answer is
    [selectedOption]. *)

Inductive Difficulty := Beginner | Intermediate | Advanced.

Inductive GrammarCategory :=
  NonFinite | RelativeClause | AdverbialClause | Conjunction | NounClause | Tense.

#[global] Instance Difficulty_eq_dec : EqDecision Difficulty.
Proof. solve_decision. Defined.

#[global] Instance GrammarCategory_eq_dec : EqDecision GrammarCategory.
Proof. solve_decision. Defined.

Record Option_ := mkOption { opt_id : string; opt_text : string }.

Record Explanation := mkExplanation {
  correctAnswer : string;
  rule : string;
  example : string;
  commonMistake : string;
  reviewLink : option string
}.

Record Question := mkQuestion {
  q_id : Z;
  sentence : string;
  options : list Option_;
  correctOptionId : string;
  difficulty : Difficulty;
  category : GrammarCategory;
  explanation : Explanation
}.

Record UserAnswer := mkUserAnswer {
  questionId : Z;
  selectedOption : string;
  isCorrect : bool
}.

(** A filter is either the wildcard entry of the menus or one enum value
    ([Difficulty | "全部"] in the source). *)
Inductive FilterOf (A : Type) := All | Only (a : A).
Arguments All {A}.
Arguments Only {A} a.

(** [f === "全部" || x === f] *)
Definition matches `{EqDecision A} (f : FilterOf A) (x : A) : bool :=
  match f with
  | All => true
  | Only a => bool_decide (x = a)
  end.

(** ** Numbers

    A JavaScript number is a double: the primitive [float], whose operations
    round to nearest, ties to even.  The value of a finite double is
    [m * 2 ^ e] for the mantissa [m] and the exponent [e] that [Prim2SF]
    returns. *)

(** A count (a natural number below 2^53) as a JavaScript number. *)
Definition number (n : nat) : float := PrimFloat.of_uint63 (Uint63.of_Z (Z.of_nat n)).

(** Neither [NaN] nor an infinity. *)
Definition Number_isFinite (x : float) : Prop :=
  match Prim2SF x with
  | S754_zero _ | S754_finite _ _ _ => True
  | _ => False
  end.

(** [Math.floor] of a finite double, as an integer. *)
Definition Math_floor (x : float) : Z :=
  match Prim2SF x with
  | S754_finite sign m e =>
      let n := if sign then Z.neg m else Z.pos m in
      if 0 <=? e then n * 2 ^ e else n / 2 ^ (- e)
  | _ => 0
  end.

(** The mantissa that rounding to nearest even makes of a mantissa shifted
    to the right, from the two bits that record what was shifted out. *)
Definition roundedMantissa (mrs : shr_record) : Z :=
  round_nearest_even (shr_m mrs) (loc_of_shr_record mrs).

(** ** [shuffleArray] *)

Module Shuffle.

(** [Math.random()] returns a number in [0, 1). *)
Definition unit_interval (r : float) : Prop :=
  (0 <=? r)%float = true /\ (r <? 1)%float = true.

(** [Math.floor(r * (i + 1))] for the number [r] that [Math.random()]
    returned: the product is rounded to a double, then floored. *)
Definition randomIndex (r : float) (i : nat) : nat :=
  Z.to_nat (Math_floor (r * number (i + 1))%float).

(** The draws of one call of [shuffleArray]: [d i] is the value of
    [Math.floor(Math.random() * (i + 1))] in the iteration with loop index
    [i].  A draw for index [i] lies in [0, i]: that is [in_range]. *)
Definition draws := nat -> nat.

(** The draws made from the numbers [random i] that [Math.random()] returns
    in the iterations [i]. *)
Definition draws_of (random : nat -> float) : draws :=
  fun i => randomIndex (random i) i.

Definition in_range (d : draws) (n : nat) : Prop :=
  forall i, (i < n)%nat -> (d i <= i)%nat.

Definition in_rangeb (d : draws) (n : nat) : bool :=
  forallb (fun i => d i <=? i)%nat (seq 0 n).

(** [[a[i], a[j]] = [a[j], a[i]]]: the right-hand side is read first, then
    [a[i]] and [a[j]] are written in this order.  The loop only ever calls
    it with [j <= i < a.length]; outside of the array the model leaves the
    list alone. *)
Definition swap {A} (a : list A) (i j : nat) : list A :=
  match a !! j, a !! i with
  | Some aj, Some ai => <[j := ai]> (<[i := aj]> a)
  | _, _ => a
  end.

(** [for (let i = shuffled.length - 1; i > 0; i--) { ... }] *)
Fixpoint shuffle_loop {A} (d : draws) (i : nat) (shuffled : list A) : list A :=
  match i with
  | O => shuffled
  | S i' => shuffle_loop d i' (swap shuffled i (d i))
  end.

Definition shuffleArray {A} (d : draws) (array : list A) : list A :=
  shuffle_loop d (length array - 1) array.

(** The algorithm in the words of the specification: for [i] from the last
    index down to 1, swap elements [i] and [j], the [j] drawn for [i]. *)
Definition fisher_yates_indices (n : nat) : list nat := rev (seq 1 (n - 1)).

Definition fisher_yates {A} (d : draws) (l : list A) : list A :=
  foldl (fun acc i => swap acc i (d i)) l (fisher_yates_indices (length l)).

(** Where the element found at position [k] after [swap a i j] was before. *)
Definition transpose (i j k : nat) : nat :=
  if decide (k = i) then j else if decide (k = j) then i else k.

(** Two draw functions that agree on the indices a shuffle of [n]
    elements consults. *)
Definition agree_on (n : nat) (d d' : draws) : Prop :=
  forall i, (1 <= i < n)%nat -> d i = d' i.

(** The possible outcomes of the draws of one shuffle of [n] elements: the
    lists [[j_0; ...; j_(n-1)]] with [j_i <= i] ([j_0] is never consulted).
    Uniform and independent draws make these outcomes equally likely; each
    has probability [1 / n!]. *)
Fixpoint draw_vectors (n : nat) : list (list nat) :=
  match n with
  | O => [[]]
  | S m => draw_vectors m ≫= (fun v => (fun j => v ++ [j]) <$> seq 0 (S m))
  end.

Definition of_vector (v : list nat) : draws := fun i => default O (v !! i).

Definition vector_of (d : draws) (n : nat) : list nat := d <$> seq 0 n.

(** *** How often each arrangement comes out

    [Math.random()] is taken to return one of the numbers [values], each as
    likely as the others and independently in every call.  A run of the
    loop on [n] elements makes [n - 1] calls; [run] lists the numbers
    returned, the one of the iteration with loop index [i] at position
    [i - 1]. *)
Fixpoint runs (values : list float) (calls : nat) : list (list float) :=
  match calls with
  | O => [[]]
  | S calls' => values ≫= (fun r => (fun run => r :: run) <$> runs values calls')
  end.

Definition random_of (run : list float) : nat -> float :=
  fun i => default 0%float (run !! (i - 1)%nat).

(** The results of all the runs; the runs are equally likely, one entry
    per run. *)
Definition outcomes {A} (values : list float) (l : list A) : list (list A) :=
  (fun run => shuffleArray (draws_of (random_of run)) l) <$> runs values (length l - 1).

(** The number of runs whose result is [p]. *)
Definition frequency `{EqDecision A} (values : list float) (l p : list A) : nat :=
  length (List.filter (fun q => bool_decide (q = p)) (outcomes values l)).

(** Unbiased, in the words of the specification: every permutation of the
    input is equally likely, that is, comes out of the same number of
    runs. *)
Definition equally_likely `{EqDecision A} (values : list float) (l : list A) : Prop :=
  forall p q, p ≡ₚ l -> q ≡ₚ l -> frequency values l p = frequency values l q.

End Shuffle.

(** ** Session state ([App]'s [useState] cells) *)

Record State := mkState {
  isStarted : bool;
  currentIndex : Z;
  selectedOptionId : option string;
  isSubmitted : bool;
  answers : list UserAnswer;
  isFinished : bool;
  filterDifficulty : FilterOf Difficulty;
  filterCategory : FilterOf GrammarCategory;
  timerDuration : option Z;
  timeRemaining : option Z;
  startTime : option Z;
  allQuestions : list Question
}.

(** The state setters.  All setters called by one handler are applied to the
    state of the render the handler was created in; their arguments are
    computed from that state. *)
Definition setIsStarted (v : bool) (s : State) : State :=
  mkState v (currentIndex s) (selectedOptionId s) (isSubmitted s) (answers s)
    (isFinished s) (filterDifficulty s) (filterCategory s) (timerDuration s)
    (timeRemaining s) (startTime s) (allQuestions s).
Definition setCurrentIndex (v : Z) (s : State) : State :=
  mkState (isStarted s) v (selectedOptionId s) (isSubmitted s) (answers s)
    (isFinished s) (filterDifficulty s) (filterCategory s) (timerDuration s)
    (timeRemaining s) (startTime s) (allQuestions s).
Definition setSelectedOptionId (v : option string) (s : State) : State :=
  mkState (isStarted s) (currentIndex s) v (isSubmitted s) (answers s)
    (isFinished s) (filterDifficulty s) (filterCategory s) (timerDuration s)
    (timeRemaining s) (startTime s) (allQuestions s).
Definition setIsSubmitted (v : bool) (s : State) : State :=
  mkState (isStarted s) (currentIndex s) (selectedOptionId s) v (answers s)
    (isFinished s) (filterDifficulty s) (filterCategory s) (timerDuration s)
    (timeRemaining s) (startTime s) (allQuestions s).
Definition setAnswers (v : list UserAnswer) (s : State) : State :=
  mkState (isStarted s) (currentIndex s) (selectedOptionId s) (isSubmitted s) v
    (isFinished s) (filterDifficulty s) (filterCategory s) (timerDuration s)
    (timeRemaining s) (startTime s) (allQuestions s).
Definition setIsFinished (v : bool) (s : State) : State :=
  mkState (isStarted s) (currentIndex s) (selectedOptionId s) (isSubmitted s)
    (answers s) v (filterDifficulty s) (filterCategory s) (timerDuration s)
    (timeRemaining s) (startTime s) (allQuestions s).
Definition setFilterDifficulty (v : FilterOf Difficulty) (s : State) : State :=
  mkState (isStarted s) (currentIndex s) (selectedOptionId s) (isSubmitted s)
    (answers s) (isFinished s) v (filterCategory s) (timerDuration s)
    (timeRemaining s) (startTime s) (allQuestions s).
Definition setFilterCategory (v : FilterOf GrammarCategory) (s : State) : State :=
  mkState (isStarted s) (currentIndex s) (selectedOptionId s) (isSubmitted s)
    (answers s) (isFinished s) (filterDifficulty s) v (timerDuration s)
    (timeRemaining s) (startTime s) (allQuestions s).
Definition setTimerDuration (v : option Z) (s : State) : State :=
  mkState (isStarted s) (currentIndex s) (selectedOptionId s) (isSubmitted s)
    (answers s) (isFinished s) (filterDifficulty s) (filterCategory s) v
    (timeRemaining s) (startTime s) (allQuestions s).
Definition setTimeRemaining (v : option Z) (s : State) : State :=
  mkState (isStarted s) (currentIndex s) (selectedOptionId s) (isSubmitted s)
    (answers s) (isFinished s) (filterDifficulty s) (filterCategory s)
    (timerDuration s) v (startTime s) (allQuestions s).
Definition setStartTime (v : option Z) (s : State) : State :=
  mkState (isStarted s) (currentIndex s) (selectedOptionId s) (isSubmitted s)
    (answers s) (isFinished s) (filterDifficulty s) (filterCategory s)
    (timerDuration s) (timeRemaining s) v (allQuestions s).
Definition setAllQuestions (v : list Question) (s : State) : State :=
  mkState (isStarted s) (currentIndex s) (selectedOptionId s) (isSubmitted s)
    (answers s) (isFinished s) (filterDifficulty s) (filterCategory s)
    (timerDuration s) (timeRemaining s) (startTime s) v.

(** [s |> f |> g]: the setters of a handler, in the order the handler calls
    them. *)
Notation "s |> f" := (f s) (at level 45, left associativity, only parsing).

(** JavaScript truthiness of the two cells tested with [!x] / [if (x)]. *)
Definition truthy_id (o : option string) : bool :=
  match o with
  | Some id => negb (String.eqb id EmptyString)
  | None => false
  end.

Definition truthy_num (o : option Z) : bool :=
  match o with
  | Some n => negb (n =? 0)
  | None => false
  end.

(** [arr[i]]: [undefined] outside of the array. *)
Definition at_index {A} (arr : list A) (i : Z) : option A :=
  if i <? 0 then None else arr !! Z.to_nat i.

(** ** Derived values *)

Definition filteredQuestions (s : State) : list Question :=
  List.filter
    (fun q =>
       let matchDifficulty := matches (filterDifficulty s) (difficulty q) in
       let matchCategory := matches (filterCategory s) (category q) in
       matchDifficulty && matchCategory)
    (allQuestions s).

Definition currentQuestion (s : State) : option Question :=
  at_index (filteredQuestions s) (currentIndex s).

Definition score (s : State) : nat := length (List.filter isCorrect (answers s)).
Definition total (s : State) : nat := length (filteredQuestions s).

(** ** Handlers *)

Definition handleStart (now : Z) (s : State) : State :=
  if (length (filteredQuestions s) =? 0)%nat then s
  else
    let s' := s |> setIsStarted true |> setStartTime (Some now) in
    if truthy_num (timerDuration s) then s' |> setTimeRemaining (timerDuration s)
    else s'.

Definition handleOptionClick (optionId : string) (s : State) : State :=
  if isSubmitted s then s else s |> setSelectedOptionId (Some optionId).

Definition handleSubmit (s : State) : State :=
  if negb (truthy_id (selectedOptionId s)) then s
  else
    match selectedOptionId s, currentQuestion s with
    | Some selected, Some q =>
        let newAnswer :=
          {| questionId := q_id q;
             selectedOption := selected;
             isCorrect := String.eqb selected (correctOptionId q) |} in
        s |> setAnswers (answers s ++ [newAnswer]) |> setIsSubmitted true
    | _, _ => s
    end.

Definition handleNext (s : State) : State :=
  if currentIndex s <? Z.of_nat (length (filteredQuestions s)) - 1 then
    s |> setCurrentIndex (currentIndex s + 1)
      |> setSelectedOptionId None
      |> setIsSubmitted false
  else s |> setIsFinished true.

(** [questions] is the bank of [./data/questions]; the controller only ever
    reads it. *)
Definition sample (questions : list Question) (d : Shuffle.draws) : list Question :=
  take 20 (Shuffle.shuffleArray d questions).

Definition handleRestart (questions : list Question) (d : Shuffle.draws)
    (s : State) : State :=
  s |> setAllQuestions (sample questions d)
    |> setCurrentIndex 0
    |> setSelectedOptionId None
    |> setIsSubmitted false
    |> setAnswers []
    |> setIsFinished false
    |> setIsStarted false
    |> setTimeRemaining None.

(** The [onChange] handlers of the two selects of the question view. *)
Definition onChangeDifficulty (f : FilterOf Difficulty) (s : State) : State :=
  s |> setFilterDifficulty f |> setCurrentIndex 0 |> setAnswers [].

Definition onChangeCategory (f : FilterOf GrammarCategory) (s : State) : State :=
  s |> setFilterCategory f |> setCurrentIndex 0 |> setAnswers [].

(** The reset button of the empty view. *)
Definition resetFilters (s : State) : State :=
  s |> setFilterDifficulty All |> setFilterCategory All.

(** ** Timer ([React.useEffect]) *)

(** The condition under which the effect installs the one-second interval. *)
Definition timerRunning (s : State) : bool :=
  isStarted s && negb (isFinished s) &&
  match timeRemaining s with
  | Some t => 0 <? t
  | None => false
  end.

(** The interval callback: [setTimeRemaining(prev => prev !== null ? prev - 1 : null)]. *)
Definition tick (s : State) : State :=
  s |> setTimeRemaining
         (match timeRemaining s with
          | Some prev => Some (prev - 1)
          | None => None
          end).

(** The effect body run after a render: when no interval is installed and
    the time is exactly 0, the session is finished. *)
Definition timerEffect (s : State) : State :=
  if timerRunning s then s
  else
    match timeRemaining s with
    | Some t => if (t =? 0) && negb (isFinished s) then s |> setIsFinished true else s
    | None => s
    end.

(** ** Views and events *)

(** The four branches of the render function, in the order it tests them. *)
Inductive View := HomeView | ResultsView | EmptyView | QuestionView.

#[global] Instance View_eq_dec : EqDecision View.
Proof. solve_decision. Defined.

Definition view (s : State) : View :=
  if negb (isStarted s) then HomeView
  else if isFinished s then ResultsView
  else if (length (filteredQuestions s) =? 0)%nat then EmptyView
  else QuestionView.

(** The values of the four timer buttons of the home view. *)
Definition timerChoices : list (option Z) := [None; Some 120; Some 300; Some 600].

Inductive Event :=
  | ClickDifficulty (f : FilterOf Difficulty)
  | ClickTimer (t : option Z)
  | ClickStart (now : Z)
  | ClickOption (optionId : string)
  | ClickSubmit
  | ClickNext
  | SelectDifficulty (f : FilterOf Difficulty)
  | SelectCategory (f : FilterOf GrammarCategory)
  | ClickResetFilters
  | ClickRestart (d : Shuffle.draws)
  | Tick.

(** The ids on the option buttons of the question on screen. *)
Definition offeredOptionIds (s : State) : list string :=
  match currentQuestion s with
  | Some q => map opt_id (options q)
  | None => []
  end.

(** Which control the rendered view offers (a control that is not rendered,
    or rendered [disabled], delivers no event), and when the interval of the
    timer effect is installed. *)
Definition offered (questions : list Question) (s : State) (e : Event) : bool :=
  match e with
  | ClickDifficulty _ => bool_decide (view s = HomeView)
  | ClickTimer t => bool_decide (view s = HomeView) && bool_decide (t ∈ timerChoices)
  | ClickStart _ =>
      bool_decide (view s = HomeView) && negb (length (filteredQuestions s) =? 0)%nat
  | ClickOption optionId =>
      bool_decide (view s = QuestionView) && negb (isSubmitted s)
      && bool_decide (optionId ∈ offeredOptionIds s)
  | ClickSubmit =>
      bool_decide (view s = QuestionView) && negb (isSubmitted s)
      && truthy_id (selectedOptionId s)
  | ClickNext => bool_decide (view s = QuestionView) && isSubmitted s
  | SelectDifficulty _ | SelectCategory _ => bool_decide (view s = QuestionView)
  | ClickResetFilters => bool_decide (view s = EmptyView)
  | ClickRestart d =>
      bool_decide (view s = ResultsView) && Shuffle.in_rangeb d (length questions)
  | Tick => timerRunning s
  end.

Definition handle (questions : list Question) (e : Event) (s : State) : State :=
  match e with
  | ClickDifficulty f => s |> setFilterDifficulty f
  | ClickTimer t => s |> setTimerDuration t
  | ClickStart now => handleStart now s
  | ClickOption optionId => handleOptionClick optionId s
  | ClickSubmit => handleSubmit s
  | ClickNext => handleNext s
  | SelectDifficulty f => onChangeDifficulty f s
  | SelectCategory f => onChangeCategory f s
  | ClickResetFilters => resetFilters s
  | ClickRestart d => handleRestart questions d s
  | Tick => tick s
  end.

(** One event: the handler runs, the component renders again and the timer
    effect runs on the new state. *)
Definition step (questions : list Question) (s : State) (e : Event) : State :=
  if offered questions s e then timerEffect (handle questions e s) else s.

Definition run (questions : list Question) (s : State) (es : list Event) : State :=
  foldl (step questions) s es.

(** The first render: every cell at its [useState] initial value. *)
Definition initial (questions : list Question) (d : Shuffle.draws) : State :=
  {| isStarted := false;
     currentIndex := 0;
     selectedOptionId := None;
     isSubmitted := false;
     answers := [];
     isFinished := false;
     filterDifficulty := All;
     filterCategory := All;
     timerDuration := None;
     timeRemaining := None;
     startTime := None;
     allQuestions := sample questions d |}.

Inductive reachable (questions : list Question) : State -> Prop :=
  | reachable_initial d :
      Shuffle.in_range d (length questions) ->
      reachable questions (initial questions d)
  | reachable_step s e :
      reachable questions s ->
      reachable questions (step questions s e).

(** ** Percentage and evaluation *)

(** The value of a finite double is [n * 2 ^ e]; [Math.round] is
    [floor (x + 1/2)], computed here without rounding error. *)
Definition Math_round (x : float) : Z :=
  match Prim2SF x with
  | S754_finite sign m e =>
      let n := if sign then Z.neg m else Z.pos m in
      if 0 <=? e then n * 2 ^ e else (2 * n + 2 ^ (- e)) / 2 ^ (1 - e)
  | _ => 0
  end.

(** [total > 0 ? Math.round((score / total) * 100) : 0] *)
Definition percentageOf (score total : nat) : Z :=
  if (0 <? total)%nat then Math_round ((number score / number total) * number 100)%float
  else 0.

Definition percentage (s : State) : Z := percentageOf (score s) (total s).

(** The same value in exact integer arithmetic: [round (100 * score / total)],
    halves rounded up. *)
Definition percentageExact (score total : nat) : Z :=
  if (0 <? total)%nat then
    (200 * Z.of_nat score + Z.of_nat total) / (2 * Z.of_nat total)
  else 0.

(** The five feedback texts of [getDetailedEvaluation]. *)
Definition evaluation100 : string :=
  "卓越的表现！你不仅展现了扎实的语法功底，更体现了对英语逻辑结构的深刻理解。从非谓语动词的微妙变化到复杂从句的精准引导，你都游刃有余。建议开始尝试阅读原版学术文章或文学作品，进一步提升语感。".
Definition evaluation85 : string :=
  "非常优秀！你已经构建了完整的语法体系，能够准确辨析绝大多数高频考点。目前的失分点可能集中在一些极具迷惑性的特殊用法或长难句的逻辑拆解上。建议针对错题所属的分类（如定语从句或非谓语）进行专项深度复习，追求极致的严谨。".
Definition evaluation70 : string :=
  "表现良好。你对核心语法规则有清晰的认识，但在实际应用中仍存在一定的思维盲区，尤其是在多种语法现象交织的情况下容易混淆。建议在练习时多问自己‘为什么不选其他项’，通过排除法强化对干扰项特征的识别能力。".
Definition evaluation50 : string :=
  "基础尚可，但仍有较大的提升空间。目前的得分反映出你在某些关键考点（如时态语态或状语从句）上存在概念模糊的情况。建议回归课本，系统性地梳理语法图谱，并结合本次练习中的‘详解卡片’进行针对性巩固，建立更稳固的知识连接。".
Definition evaluationBelow50 : string :=
  "目前的成绩提醒你需要重新审视自己的学习策略。语法是语言的骨架，基础不牢会直接限制阅读和写作能力的提升。不要被挫折打败，建议从最基础的简单句结构开始复习，每天坚持完成一组20题的练习，并逐一消化解析内容。坚持一个月，你一定会看到质的飞跃。".

Definition getDetailedEvaluation (p : Z) : string :=
  if p =? 100 then evaluation100
  else if 85 <=? p then evaluation85
  else if 70 <=? p then evaluation70
  else if 50 <=? p then evaluation50
  else evaluationBelow50.

(** The tiers in the words of the specification. *)
Inductive Tier := Tier100 | Tier85 | Tier70 | Tier50 | TierBelow50.

Definition tierText (t : Tier) : string :=
  match t with
  | Tier100 => evaluation100
  | Tier85 => evaluation85
  | Tier70 => evaluation70
  | Tier50 => evaluation50
  | TierBelow50 => evaluationBelow50
  end.

Definition inTier (t : Tier) (p : Z) : Prop :=
  match t with
  | Tier100 => p = 100
  | Tier85 => 85 <= p < 100
  | Tier70 => 70 <= p < 85
  | Tier50 => 50 <= p < 70
  | TierBelow50 => 0 <= p < 50
  end.

(** ** Invariant of the session

    What every state of a session satisfies.  [inv_index] is the bound on
    the index the render code relies on ([currentQuestion] is dereferenced
    whenever the filtered set is not empty); [inv_answers_index] says that at
    most one answer is recorded per index visited. *)
Record Inv (questions : list Question) (s : State) : Prop := {
  inv_index_nonneg : 0 <= currentIndex s;
  inv_index : currentIndex s = 0 \/ currentIndex s < Z.of_nat (total s);
  inv_answers_total : (length (answers s) <= total s)%nat;
  inv_answers_index :
    Z.of_nat (length (answers s)) <= currentIndex s + (if isSubmitted s then 1 else 0);
  inv_home :
    isStarted s = false ->
    currentIndex s = 0 /\ answers s = [] /\ isSubmitted s = false
    /\ isFinished s = false /\ timeRemaining s = None;
  inv_timer : timerDuration s ∈ timerChoices;
  inv_time : forall t, timeRemaining s = Some t -> 0 <= t;
  inv_sample :
    exists d, Shuffle.in_range d (length questions) /\ allQuestions s = sample questions d
}.

(** After the effect has run, a remaining time of 0 means finished. *)
Definition settled (s : State) : Prop :=
  timeRemaining s = Some 0 -> isFinished s = true.

(** [count(answers where isCorrect)], in the words of the specification. *)
Fixpoint countCorrect (l : list UserAnswer) : nat :=
  match l with
  | [] => O
  | a :: l' => if isCorrect a then S (countCorrect l') else countCorrect l'
  end.

(** ** Concrete sessions

    A small bank and scripted sessions on it, used to run the controller. *)

Definition demoOptions : list Option_ :=
  [mkOption "a" "to go"; mkOption "b" "going"; mkOption "c" "gone"; mkOption "d" "goes"].

Definition demoExplanation : Explanation :=
  mkExplanation "to go" "want + to do" "I want to go." "want doing" None.

Definition demoQuestion (d : Difficulty) (c : GrammarCategory) (i : nat) : Question :=
  {| q_id := Z.of_nat i;
     sentence := "I want ______ home.";
     options := demoOptions;
     correctOptionId := "a";
     difficulty := d;
     category := c;
     explanation := demoExplanation |}.

(** [n] beginner questions on tenses, with ids [1 .. n]. *)
Definition demoBank (n : nat) : list Question :=
  map (demoQuestion Beginner Tense) (seq 1 n).

(** Draws that leave the order alone ([j = i] in every iteration) and draws
    that always pick the first element ([j = 0]). *)
Definition keepOrder : Shuffle.draws := fun i => i.
Definition pickFirst : Shuffle.draws := fun _ => O.

(** Choosing an option, submitting it and moving on. *)
Definition answerWith (optionId : string) : list Event :=
  [ClickOption optionId; ClickSubmit; ClickNext].

Definition repeatEvents (n : nat) (es : list Event) : list Event :=
  concat (replicate n es).

(** One question per difficulty, all on tenses, with ids 1, 2 and 3. *)
Definition mixedBank : list Question :=
  [demoQuestion Beginner Tense 1; demoQuestion Intermediate Tense 2;
   demoQuestion Advanced Tense 3].

(** A question with an option whose id is the empty string. *)
Definition blankIdQuestion : Question :=
  {| q_id := 1;
     sentence := "I want ______ home.";
     options := [mkOption EmptyString "to go"; mkOption "b" "going"];
     correctOptionId := EmptyString;
     difficulty := Beginner;
     category := Tense;
     explanation := demoExplanation |}.

(** ** What the views display *)

(** [s.padStart(targetLength, pad)] for a one-character [pad]. *)
Fixpoint repeatChar (n : nat) (c : Ascii.ascii) : string :=
  match n with
  | O => EmptyString
  | S n' => String c (repeatChar n' c)
  end.

Definition padStart (targetLength : nat) (pad : Ascii.ascii) (s : string) : string :=
  repeatChar (targetLength - String.length s) pad +:+ s.

(** [formatTime]: [Math.floor(seconds / 60)], [seconds % 60] (the remainder
    has the sign of [seconds]) and the template string.  [seconds] is an
    integer, and the model computes on integers: for an integer below 2^53 in
    absolute value the quotient of the doubles, floored, is the integer
    quotient, the remainder is exact, and both are printed in decimal. *)
Definition formatTime (seconds : Z) : string :=
  let mins := seconds / 60 in
  let secs := Z.rem seconds 60 in
  pretty mins +:+ ":" +:+ padStart 2 "0"%char (pretty secs).

(** The text on the remaining-time card; the card is rendered when
    [timeRemaining !== null]. *)
Definition timerCard (s : State) : option string :=
  formatTime <$> timeRemaining s.

(** [answers.length > 0 && answers[answers.length - 1].isCorrect] *)
Definition isLastCorrect (s : State) : bool :=
  (0 <? length (answers s))%nat &&
  match at_index (answers s) (Z.of_nat (length (answers s)) - 1) with
  | Some a => isCorrect a
  | None => false
  end.

(** [selectedOptionId === currentQuestion.correctOptionId], the test that
    colours the blank and the option buttons of a submitted question. *)
Definition selectionIsCorrect (s : State) : bool :=
  match selectedOptionId s, currentQuestion s with
  | Some selected, Some q => String.eqb selected (correctOptionId q)
  | _, _ => false
  end.

(** [currentIndex === total - 1 ? "查看结果" : "下一题"] *)
Definition nextButtonLabel (s : State) : string :=
  if currentIndex s =? Z.of_nat (total s) - 1 then "查看结果" else "下一题".

(** The two values of [chartData]: right and wrong. *)
Definition chartData (s : State) : Z * Z :=
  (Z.of_nat (score s), Z.of_nat (total s) - Z.of_nat (score s)).

(** ** A complete session *)

(** The answer recorded for [q] when the option [choice q] is submitted. *)
Definition recordedAnswer (choice : Question -> string) (q : Question) : UserAnswer :=
  {| questionId := q_id q;
     selectedOption := choice q;
     isCorrect := String.eqb (choice q) (correctOptionId q) |}.

(** The events of a learner who answers the questions [qs] one after the
    other. *)
Definition answerAll (choice : Question -> string) (qs : list Question) : list Event :=
  flat_map (fun q => answerWith (choice q)) qs.

(** A choice the option buttons of [q] can deliver and [handleSubmit]
    accepts. *)
Definition validChoice (choice : Question -> string) (q : Question) : Prop :=
  choice q <> EmptyString /\ choice q ∈ map opt_id (options q).

(** ** Kinds of events *)

Definition isTick (e : Event) : bool :=
  match e with Tick => true | _ => false end.

(** The events whose handlers call [setAnswers([])]. *)
Definition clearsAnswers (e : Event) : bool :=
  match e with
  | SelectDifficulty _ | SelectCategory _ | ClickRestart _ => true
  | _ => false
  end.

(** ** Further invariants of the session *)

Record SessionInv (s : State) : Prop := {
  sinv_sample : isStarted s = true -> allQuestions s <> [];
  sinv_startTime : isStarted s = true -> is_Some (startTime s);
  sinv_time :
    forall t, timeRemaining s = Some t ->
    isStarted s = true /\ exists d, timerDuration s = Some d /\ t <= d;
  sinv_selected : isSubmitted s = true -> truthy_id (selectedOptionId s) = true;
  sinv_feedback :
    isSubmitted s = true -> answers s <> [] ->
    exists q selected,
      currentQuestion s = Some q /\ selectedOptionId s = Some selected
      /\ last (answers s)
         = Some {| questionId := q_id q;
                   selectedOption := selected;
                   isCorrect := String.eqb selected (correctOptionId q) |}
}.

(** * Properties *)

(** ** Evaluation tiers *)

Lemma inTier_unique (p : Z) (t t' : Tier) : inTier t p -> inTier t' p -> t = t'.
Proof. destruct t, t'; simpl; intros; first [reflexivity | lia]. Qed.

Lemma inTier_exists (p : Z) : 0 <= p <= 100 -> exists t, inTier t p.
Proof.
  intros Hp.
  destruct (Z.eq_dec p 100) as [->|Hne]; [by exists Tier100|].
  destruct (Z_le_gt_dec 85 p); [exists Tier85; simpl; lia|].
  destruct (Z_le_gt_dec 70 p); [exists Tier70; simpl; lia|].
  destruct (Z_le_gt_dec 50 p); [exists Tier50; simpl; lia|].
  exists TierBelow50; simpl; lia.
Qed.

Lemma getDetailedEvaluation_inTier (p : Z) (t : Tier) :
  inTier t p -> getDetailedEvaluation p = tierText t.
Proof.
  unfold getDetailedEvaluation.
  destruct t; simpl; intros Hp;
    repeat match goal with
      | |- context [?a =? ?b] => destruct (Z.eqb_spec a b); try lia
      | |- context [?a <=? ?b] => destruct (Z.leb_spec a b); try lia
      end; reflexivity.
Qed.

Lemma tierText_inj (t t' : Tier) : tierText t = tierText t' -> t = t'.
Proof.
  destruct t, t'; first [reflexivity | intros H; vm_compute in H; discriminate H].
Qed.

(** On every session the sample allows (at most 20 questions), the double
    arithmetic of [percentage] is exact. *)
Lemma percentageOf_exact (score total : nat) :
  (score <= total <= 20)%nat -> percentageOf score total = percentageExact score total.
Proof.
  intros H.
  assert (Hall : forallb (fun t => forallb (fun sc =>
            percentageOf sc t =? percentageExact sc t) (seq 0 (S t))) (seq 0 21) = true)
    by (vm_compute; reflexivity).
  rewrite forallb_forall in Hall.
  specialize (Hall total). rewrite forallb_forall in Hall.
  apply Z.eqb_eq, Hall; apply in_seq; lia.
Qed.

(** ** Reachable states *)

Lemma timerChoices_truthy (t : option Z) :
  t ∈ timerChoices -> t = None \/ exists n, t = Some n /\ 0 < n.
Proof.
  unfold timerChoices. rewrite !elem_of_cons, elem_of_nil.
  intros [->|[->|[->|[->|[]]]]]; [by left|right..]; eexists; (split; [done|lia]).
Qed.

Lemma truthy_num_choice (t : option Z) :
  t ∈ timerChoices -> truthy_num t = true -> exists n, t = Some n /\ 0 < n.
Proof.
  intros Ht Htr. destruct (timerChoices_truthy t Ht) as [->|?]; [discriminate|done].
Qed.

Lemma at_index_Some {A} (l : list A) (i : Z) (x : A) :
  at_index l i = Some x -> 0 <= i < Z.of_nat (length l).
Proof.
  unfold at_index. destruct (Z.ltb_spec i 0); [discriminate|].
  intros Hx%lookup_lt_Some. lia.
Qed.

Lemma at_index_is_Some {A} (l : list A) (i : Z) :
  0 <= i < Z.of_nat (length l) -> is_Some (at_index l i).
Proof.
  intros Hi. unfold at_index. destruct (Z.ltb_spec i 0); [lia|].
  apply lookup_lt_is_Some. lia.
Qed.

Lemma view_cases (s : State) :
  (view s = HomeView /\ isStarted s = false)
  \/ (view s = ResultsView /\ isStarted s = true /\ isFinished s = true)
  \/ (view s = EmptyView /\ isStarted s = true /\ isFinished s = false /\ total s = O)
  \/ (view s = QuestionView /\ isStarted s = true /\ isFinished s = false
      /\ (0 < total s)%nat).
Proof.
  unfold view, total. destruct (isStarted s); simpl; [|by left].
  destruct (isFinished s); [by right; left|].
  destruct (Nat.eqb_spec (length (filteredQuestions s)) 0) as [->|Hne].
  - by right; right; left.
  - right; right; right. repeat split; lia.
Qed.

(** The timer effect touches nothing but the finished flag. *)
Lemma timerEffect_cases (s : State) :
  timerEffect s = s
  \/ (timerEffect s = setIsFinished true s /\ timeRemaining s = Some 0
      /\ isFinished s = false).
Proof.
  unfold timerEffect. destruct (timerRunning s); [by left|].
  destruct (timeRemaining s) as [t|]; [|by left].
  destruct (Z.eqb_spec t 0) as [->|]; simpl; [|by left].
  destruct (isFinished s); simpl; [by left|by right].
Qed.

Lemma Inv_timerEffect (questions : list Question) (s : State) :
  Inv questions s -> Inv questions (timerEffect s).
Proof.
  intros HI. destruct (timerEffect_cases s) as [->|(-> & Ht & Hf)]; [done|].
  destruct HI as [H1 H2 H3 H4 H5 H6 H7 H8].
  split; simpl; try done.
  - intros Hs. destruct (H5 Hs) as (_ & _ & _ & _ & Hn). congruence.
Qed.

Lemma view_home (s : State) : view s = HomeView -> isStarted s = false.
Proof. destruct (view_cases s) as [?|[?|[?|?]]]; intros; destruct_and!; congruence. Qed.

Lemma view_results (s : State) :
  view s = ResultsView -> isStarted s = true /\ isFinished s = true.
Proof. destruct (view_cases s) as [?|[?|[?|?]]]; intros; destruct_and!; split; congruence. Qed.

Lemma view_empty (s : State) :
  view s = EmptyView -> isStarted s = true /\ isFinished s = false /\ total s = O.
Proof.
  destruct (view_cases s) as [?|[?|[?|?]]]; intros; destruct_and!;
    repeat split; congruence.
Qed.

Lemma view_question (s : State) :
  view s = QuestionView ->
  isStarted s = true /\ isFinished s = false /\ (0 < total s)%nat.
Proof.
  destruct (view_cases s) as [?|[?|[?|?]]]; intros; destruct_and!;
    repeat split; congruence.
Qed.

Lemma in_rangeb_spec (d : Shuffle.draws) (n : nat) :
  Shuffle.in_rangeb d n = true <-> Shuffle.in_range d n.
Proof.
  unfold Shuffle.in_rangeb, Shuffle.in_range. rewrite forallb_forall. split.
  - intros H i Hi. apply Nat.leb_le, H, in_seq. lia.
  - intros H i Hi%in_seq. apply Nat.leb_le, H. lia.
Qed.

Ltac decode_offered H :=
  simpl in H;
  rewrite ?andb_true_iff, ?bool_decide_eq_true, ?negb_true_iff in H;
  destruct_and?.

Lemma Inv_initial (questions : list Question) (d : Shuffle.draws) :
  Shuffle.in_range d (length questions) -> Inv questions (initial questions d).
Proof.
  intros Hd. split; simpl; try done; try lia.
  - apply list_elem_of_here.
  - by exists d.
Qed.

Ltac inv_fields :=
  split; unfold total, filteredQuestions in *; simpl;
  try first
    [ done | lia | by left | congruence
    | by (intros; destruct_and?; congruence)
    | by (destruct (isSubmitted _); lia) ].

Ltac view_facts :=
  repeat match goal with
    | H : view _ = HomeView |- _ => apply view_home in H
    | H : view _ = ResultsView |- _ => apply view_results in H; destruct H as [? ?]
    | H : view _ = EmptyView |- _ => apply view_empty in H; destruct H as (? & ? & ?)
    | H : view _ = QuestionView |- _ =>
        apply view_question in H; destruct H as (? & ? & ?)
    end.

Lemma Inv_handle (questions : list Question) (s : State) (e : Event) :
  Inv questions s -> offered questions s e = true ->
  Inv questions (handle questions e s).
Proof.
  intros [H1 H2 H3 H4 H5 H6 H7 H8] Hoff.
  destruct e; decode_offered Hoff; view_facts; cbn [handle].
  - (* difficulty button of the home view *)
    destruct (H5 Hoff) as (Hi & Ha & Hsub & Hfin & Htr).
    inv_fields; rewrite Ha; simpl; lia.
  - (* timer button *)
    inv_fields.
  - (* start *)
    unfold handleStart.
    destruct (length (filteredQuestions s) =? 0)%nat; [by split|].
    destruct (truthy_num (timerDuration s)) eqn:Htd; [|inv_fields].
    destruct (truthy_num_choice _ H6 Htd) as (n & Hn & Hpos).
    inv_fields; intros t; rewrite Hn; intros [= <-]; lia.
  - (* option button *)
    unfold handleOptionClick. destruct (isSubmitted s) eqn:Hsub; [by split|].
    inv_fields.
  - (* submit *)
    unfold handleSubmit.
    destruct (negb (truthy_id (selectedOptionId s))); [by split|].
    destruct (selectedOptionId s) as [selected|]; [|by split].
    destruct (currentQuestion s) as [q|] eqn:Hq; [|by split].
    apply at_index_Some in Hq. fold (total s) in Hq.
    match goal with H : isSubmitted s = false |- _ => rewrite H in H4 end.
    inv_fields; rewrite length_app; simpl; lia.
  - (* next *)
    unfold handleNext. fold (total s).
    match goal with H : isSubmitted s = true |- _ => rewrite H in H4 end.
    destruct (Z.ltb_spec (currentIndex s) (Z.of_nat (total s) - 1)); inv_fields.
  - (* difficulty select of the question view *)
    inv_fields.
  - (* category select of the question view *)
    inv_fields.
  - (* reset button of the empty view *)
    assert (Ha : answers s = []) by (apply length_zero_iff_nil; lia).
    assert (Hi : currentIndex s = 0) by lia.
    inv_fields; rewrite Ha; simpl; lia.
  - (* restart *)
    inv_fields.
    all: match goal with H : Shuffle.in_rangeb _ _ = true |- _ =>
      apply in_rangeb_spec in H; eauto end.
  - (* tick *)
    unfold timerRunning in Hoff. decode_offered Hoff.
    destruct (timeRemaining s) as [t|] eqn:Ht; [|done].
    match goal with H : (0 <? t) = true |- _ => apply Z.ltb_lt in H end.
    inv_fields; rewrite Ht; intros ? [= <-]; lia.
Qed.

Lemma Inv_step (questions : list Question) (s : State) (e : Event) :
  Inv questions s -> Inv questions (step questions s e).
Proof.
  intros HI. unfold step. destruct (offered questions s e) eqn:Hoff; [|done].
  by apply Inv_timerEffect, Inv_handle.
Qed.

Lemma reachable_Inv (questions : list Question) (s : State) :
  reachable questions s -> Inv questions s.
Proof.
  induction 1 as [d Hd|s e _ IH]; [by apply Inv_initial | by apply Inv_step].
Qed.

Lemma reachable_run (questions : list Question) (s : State) (es : list Event) :
  reachable questions s -> reachable questions (run questions s es).
Proof.
  revert s. induction es as [|e es IH]; intros s Hs; [done|].
  apply IH. by constructor.
Qed.

Lemma in_range_keepOrder (n : nat) : Shuffle.in_range keepOrder n.
Proof. intros i _. unfold keepOrder. lia. Qed.

Lemma in_range_pickFirst (n : nat) : Shuffle.in_range pickFirst n.
Proof. intros i _. unfold pickFirst. lia. Qed.

Lemma score_countCorrect (l : list UserAnswer) :
  length (List.filter isCorrect l) = countCorrect l.
Proof.
  induction l as [|a l IH]; simpl; [done|].
  destruct (isCorrect a); simpl; by rewrite IH.
Qed.

Lemma filter_length_le {A} (f : A -> bool) (l : list A) :
  (length (List.filter f l) <= length l)%nat.
Proof. induction l as [|a l IH]; simpl; [lia|]. destruct (f a); simpl; lia. Qed.

(** ** Index bound *)

(** C3, the claim as stated fails: after the difficulty select of a running
    session has been set to a difficulty no sampled question has, the filtered
    set is empty and the index 0 is not below its length. *)
Lemma index_in_bounds_counterexample :
  ~ (forall questions s, reachable questions s ->
       0 <= currentIndex s < Z.of_nat (length (filteredQuestions s))).
Proof.
  intros Hclaim.
  pose (qs := demoBank 3).
  pose (s := run qs (initial qs keepOrder) [ClickStart 0; SelectDifficulty (Only Advanced)]).
  assert (Hr : reachable qs s).
  { apply reachable_run. constructor. apply in_range_keepOrder. }
  apply Hclaim in Hr. vm_compute in Hr. destruct Hr as [_ Hlt]. discriminate Hlt.
Qed.

(** C3, amended.  In every reachable state the index is a natural number
    that is below the size of the filtered set whenever that set is not
    empty, and is 0 when it is empty; so the question view always has a
    current question.  Every transition preserves this, since every
    transition leads to a reachable state. *)
Theorem index_in_bounds (questions : list Question) (s : State) :
  reachable questions s ->
  0 <= currentIndex s
  /\ ((0 < total s)%nat -> currentIndex s < Z.of_nat (length (filteredQuestions s)))
  /\ (total s = O -> currentIndex s = 0 /\ currentQuestion s = None)
  /\ (view s = QuestionView -> is_Some (currentQuestion s))
  /\ (forall e, let s' := step questions s e in
        0 <= currentIndex s'
        /\ ((0 < total s')%nat -> currentIndex s' < Z.of_nat (total s'))).
Proof.
  intros Hr.
  assert (Hbound : forall s0, Inv questions s0 ->
            0 <= currentIndex s0
            /\ ((0 < total s0)%nat -> currentIndex s0 < Z.of_nat (total s0))).
  { intros s0 [H1 H2 _ _ _ _ _ _]. split; [done|]. lia. }
  pose proof (reachable_Inv _ _ Hr) as HI.
  destruct (Hbound s HI) as [Hnn Hlt]. split; [done|]. split; [done|]. split.
  - intros H0. destruct HI as [_ H2 _ _ _ _ _ _].
    assert (Hi : currentIndex s = 0) by lia. split; [done|].
    unfold currentQuestion, at_index. rewrite Hi. simpl.
    apply lookup_ge_None. fold (total s). lia.
  - split.
    + intros Hv%view_question. apply at_index_is_Some. fold (total s).
      destruct Hv as (_ & _ & Hpos). auto.
    + intros e s'. apply Hbound, Inv_step, HI.
Qed.

(** After the first of three questions is answered the index is 1. *)
Lemma index_in_bounds_witness :
  let qs := demoBank 3 in
  let s := run qs (initial qs keepOrder) (ClickStart 0 :: answerWith "a") in
  currentIndex s = 1 /\ currentIndex s < Z.of_nat (length (filteredQuestions s)).
Proof.
  intros qs s. split; [by vm_compute|].
  assert (Hr : reachable qs s).
  { apply reachable_run. constructor. apply in_range_keepOrder. }
  destruct (index_in_bounds qs s Hr) as (_ & Hlt & _). apply Hlt. vm_compute. lia.
Defined.

(** ** Score *)

(** C7.  In every reachable state the score is the number of recorded
    answers that are correct, it is at most the number of recorded answers,
    and that is at most the size of the filtered working set; the same holds
    after any further sequence of events. *)
Theorem score_invariant (questions : list Question) (s : State) :
  reachable questions s ->
  score s = countCorrect (answers s)
  /\ (score s <= length (answers s) <= total s)%nat
  /\ (forall es, let s' := run questions s es in
        score s' = countCorrect (answers s') /\ (score s' <= total s')%nat).
Proof.
  assert (Hscore : forall s0, reachable questions s0 ->
            score s0 = countCorrect (answers s0)
            /\ (score s0 <= length (answers s0) <= total s0)%nat).
  { intros s0 Hr0. split; [apply score_countCorrect|].
    destruct (reachable_Inv _ _ Hr0) as [_ _ H3 _ _ _ _ _].
    split; [apply filter_length_le | done]. }
  intros Hr. destruct (Hscore s Hr) as [Hc Hle]. split; [done|]. split; [done|].
  intros es s'. destruct (Hscore s') as [Hc' Hle'].
  - by apply reachable_run.
  - split; [done | lia].
Qed.

(** A session on three questions: one right, one wrong, the third pending. *)
Lemma score_invariant_witness :
  let qs := demoBank 3 in
  let s := run qs (initial qs pickFirst)
             (ClickStart 0 :: answerWith "a" ++ answerWith "b") in
  score s = 1%nat /\ length (answers s) = 2%nat /\ total s = 3%nat
  /\ score s = countCorrect (answers s) /\ (score s <= total s)%nat.
Proof.
  intros qs s.
  assert (Hr : reachable qs s).
  { apply reachable_run. constructor. apply in_range_pickFirst. }
  destruct (score_invariant qs s Hr) as (Hc & Hle & _).
  split; [by vm_compute|]. split; [by vm_compute|]. split; [by vm_compute|].
  split; [exact Hc | lia].
Defined.

(** ** Evaluation of a session *)

Lemma percentageExact_bounds (score total : nat) :
  (score <= total)%nat -> 0 <= percentageExact score total <= 100.
Proof.
  intros Hle. unfold percentageExact.
  destruct (Nat.ltb_spec 0 total) as [Hpos|_]; [|lia].
  split.
  - apply Z.div_pos; lia.
  - apply Z.lt_succ_r, Z.div_lt_upper_bound; lia.
Qed.

Lemma total_le_20 (questions : list Question) (s : State) :
  reachable questions s -> (total s <= 20)%nat.
Proof.
  intros Hr. destruct (reachable_Inv _ _ Hr) as [_ _ _ _ _ _ _ (d & _ & Hd)].
  unfold total, filteredQuestions.
  etransitivity; [apply filter_length_le|].
  rewrite Hd. unfold sample. rewrite length_take. lia.
Qed.

Lemma percentage_reachable (questions : list Question) (s : State) :
  reachable questions s ->
  percentage s = percentageExact (score s) (total s) /\ 0 <= percentage s <= 100.
Proof.
  intros Hr. pose proof (total_le_20 _ _ Hr) as H20.
  assert (Hle : (score s <= total s)%nat).
  { destruct (reachable_Inv _ _ Hr) as [_ _ H3 _ _ _ _ _].
    unfold score. etransitivity; [apply filter_length_le|done]. }
  unfold percentage. rewrite percentageOf_exact by lia.
  split; [done|]. by apply percentageExact_bounds.
Qed.

(** C5.  The evaluation is a function of the percentage with five tiers
    (100, at least 85, at least 70, at least 50, below 50): every percentage
    in [0, 100] lies in exactly one tier and is answered with that tier's
    text, the five texts are pairwise different, every lower bound belongs to
    its own tier, and a session with 15 correct answers out of 20 questions
    has percentage 75 and gets the text of the tier from 70 (inclusive) to
    85 (exclusive).  In every reachable state the percentage is
    [round (100 * score / total)] and lies in [0, 100]. *)
Theorem evaluation_tiers :
  (forall p, 0 <= p <= 100 ->
     exists t, inTier t p /\ (forall t', inTier t' p -> t' = t)
               /\ getDetailedEvaluation p = tierText t)
  /\ (forall t t', tierText t = tierText t' -> t = t')
  /\ (inTier Tier100 100 /\ inTier Tier85 85 /\ inTier Tier85 99
      /\ inTier Tier70 70 /\ inTier Tier70 84 /\ inTier Tier50 50
      /\ inTier Tier50 69 /\ inTier TierBelow50 49 /\ inTier TierBelow50 0)
  /\ (forall s, total s = 20%nat -> score s = 15%nat ->
        percentage s = 75 /\ percentage s = percentageExact 15 20
        /\ getDetailedEvaluation (percentage s) = tierText Tier70)
  /\ (forall questions s, reachable questions s ->
        percentage s = percentageExact (score s) (total s)
        /\ 0 <= percentage s <= 100).
Proof.
  split; [|split; [|split; [|split]]].
  - intros p Hp. destruct (inTier_exists p Hp) as [t Ht].
    exists t. split; [done|]. split.
    + intros t' Ht'. by apply (inTier_unique p).
    + by apply getDetailedEvaluation_inTier.
  - apply tierText_inj.
  - simpl. lia.
  - intros s Ht Hs. unfold percentage. rewrite Ht, Hs.
    assert (H75 : percentageOf 15 20 = 75) by (vm_compute; reflexivity).
    rewrite H75. split; [done|]. split; [by vm_compute|].
    apply getDetailedEvaluation_inTier. simpl. lia.
  - intros questions s Hr. by apply (percentage_reachable questions).
Qed.

(** Scenario D run on the controller: a bank of 20 questions, every question
    answered, 15 of them correctly. *)
Lemma evaluation_tiers_witness :
  let s := run (demoBank 20) (initial (demoBank 20) keepOrder)
             (ClickStart 0 :: repeatEvents 15 (answerWith "a")
                ++ repeatEvents 5 (answerWith "b")) in
  view s = ResultsView /\ length (answers s) = 20%nat /\ percentage s = 75
  /\ getDetailedEvaluation (percentage s) = evaluation70
  /\ (exists t, inTier t 75 /\ getDetailedEvaluation 75 = tierText t).
Proof.
  intros s.
  destruct evaluation_tiers as (Htier & _ & _ & Hscenario & _).
  destruct (Hscenario s) as (Hp & _ & He); [by vm_compute | by vm_compute |].
  split; [by vm_compute|]. split; [by vm_compute|].
  split; [exact Hp|]. split; [exact He|].
  destruct (Htier 75) as (t & Ht & _ & Het); [lia|].
  exists t. by split.
Defined.

(** ** The timer effect after an event *)

Lemma timerEffect_settled (s : State) : settled (timerEffect s).
Proof.
  unfold settled.
  destruct (timerEffect_cases s) as [Heq|(-> & Ht & Hf)]; [|done].
  rewrite Heq. intros Ht. revert Heq. unfold timerEffect, timerRunning.
  rewrite Ht. rewrite andb_false_r. simpl.
  destruct (isFinished s) eqn:Hf; simpl; [done|].
  intros Heq. apply (f_equal isFinished) in Heq. simpl in Heq. congruence.
Qed.

Lemma reachable_settled (questions : list Question) (s : State) :
  reachable questions s -> settled s.
Proof.
  induction 1 as [d Hd|s e _ IH]; [done|].
  unfold step. destruct (offered questions s e); [apply timerEffect_settled | done].
Qed.

(** An event that leaves the remaining time and the finished flag alone, or
    that starts from a state that is not finished and stays so, is not
    followed by a forced finish. *)
Lemma timerEffect_after (s s' : State) :
  settled s ->
  timeRemaining s' = timeRemaining s -> isFinished s = false ->
  timerEffect s' = s'.
Proof.
  intros Hs Ht Hf. destruct (timerEffect_cases s') as [Heq|(_ & Ht' & _)]; [done|].
  rewrite Ht in Ht'. rewrite (Hs Ht') in Hf. discriminate.
Qed.

(** ** [submit] *)

Lemma truthy_id_Some (selected : string) :
  truthy_id (Some selected) = true <-> selected <> EmptyString.
Proof.
  simpl. rewrite negb_true_iff. destruct (String.eqb_spec selected EmptyString); split; congruence.
Qed.

(** C1, the claim as stated fails: the test for a selection is the
    truthiness of [selectedOptionId].  After a click on an option whose id is
    the empty string, that option is the selected one and there is a current
    question, not yet submitted; the submit button is disabled, and
    [handleSubmit] returns at once: no answer is recorded and the question is
    not locked. *)
Lemma submit_empty_id_counterexample :
  let qs := [blankIdQuestion] in
  let s := run qs (initial qs keepOrder) [ClickStart 0; ClickOption EmptyString] in
  selectedOptionId s = Some EmptyString
  /\ currentQuestion s = Some blankIdQuestion
  /\ isSubmitted s = false
  /\ handleSubmit s = s
  /\ step qs s ClickSubmit = s
  /\ answers (step qs s ClickSubmit) = []
  /\ isSubmitted (step qs s ClickSubmit) = false.
Proof. repeat split; vm_compute; reflexivity. Qed.

(** C1, amended.  Submit is the event of the submit button.  With a
    selected option whose id is not the empty string and a current question
    not yet submitted, it appends exactly one answer, whose [isCorrect] says
    whether the selected id equals the question's [correctOptionId], sets the
    submitted flag and changes nothing else; [handleSubmit] does the same
    whenever it is called with such a selection and a current question.
    Submit changes nothing when no option is selected or when the current
    question is already submitted: in the first case the button is disabled
    and [handleSubmit] returns at once, in the second the view renders the
    next button in place of the submit button. *)
Theorem submit_spec (questions : list Question) (s : State) :
  (forall selected,
     reachable questions s -> view s = QuestionView -> isSubmitted s = false ->
     selectedOptionId s = Some selected -> selected <> EmptyString ->
     exists q,
       currentQuestion s = Some q
       /\ step questions s ClickSubmit =
            s |> setAnswers
                   (answers s ++
                      [{| questionId := q_id q;
                          selectedOption := selected;
                          isCorrect := bool_decide (selected = correctOptionId q) |}])
              |> setIsSubmitted true)
  /\ (forall selected q,
       selectedOptionId s = Some selected -> selected <> EmptyString ->
       currentQuestion s = Some q ->
       handleSubmit s =
         s |> setAnswers
                (answers s ++
                   [{| questionId := q_id q;
                       selectedOption := selected;
                       isCorrect := bool_decide (selected = correctOptionId q) |}])
           |> setIsSubmitted true)
  /\ (selectedOptionId s = None \/ isSubmitted s = true ->
      offered questions s ClickSubmit = false /\ step questions s ClickSubmit = s)
  /\ (selectedOptionId s = None \/ currentQuestion s = None -> handleSubmit s = s).
Proof.
  assert (Happend : forall selected q,
    selectedOptionId s = Some selected -> selected <> EmptyString ->
    currentQuestion s = Some q ->
    handleSubmit s =
      s |> setAnswers
             (answers s ++
                [{| questionId := q_id q;
                    selectedOption := selected;
                    isCorrect := bool_decide (selected = correctOptionId q) |}])
        |> setIsSubmitted true).
  { intros selected q Hsel Hne Hq. unfold handleSubmit.
    rewrite Hsel, Hq. rewrite (proj2 (truthy_id_Some selected) Hne). simpl.
    do 4 f_equal. destruct (String.eqb_spec selected (correctOptionId q)).
    - by rewrite bool_decide_eq_true_2.
    - by rewrite bool_decide_eq_false_2. }
  split; [|split; [exact Happend|split]].
  - intros selected Hr Hv Hsub Hsel Hne.
    pose proof (reachable_Inv _ _ Hr) as [Hnn Hidx _ _ _ _ _ _].
    assert (Hoff : offered questions s ClickSubmit = true).
    { simpl. rewrite Hsub, Hsel, bool_decide_eq_true_2 by done. simpl.
      rewrite negb_true_iff. by destruct (String.eqb_spec selected EmptyString). }
    unfold view in Hv. destruct (negb (isStarted s)); [done|].
    destruct (isFinished s) eqn:Hfin; [done|].
    destruct (length (filteredQuestions s) =? 0)%nat eqn:Hlen; [done|].
    apply Nat.eqb_neq in Hlen.
    destruct (at_index_is_Some (filteredQuestions s) (currentIndex s)) as [q Hq].
    { fold (total s). unfold total in *. lia. }
    fold (currentQuestion s) in Hq. exists q. split; [done|].
    unfold step. rewrite Hoff. cbn [handle].
    rewrite (Happend selected q Hsel Hne Hq).
    apply (timerEffect_after s); [by apply (reachable_settled questions)|done|done].
  - intros Hcase.
    assert (Hoff : offered questions s ClickSubmit = false).
    { simpl. destruct Hcase as [Hc|Hc]; rewrite Hc; simpl;
        by rewrite ?andb_false_r. }
    split; [done|]. unfold step. by rewrite Hoff.
  - intros [Hsel|Hq]; unfold handleSubmit.
    + by rewrite Hsel.
    + rewrite Hq. destruct (negb _); [done|]. by destruct (selectedOptionId s).
Qed.

(** Scenario B: option "b" chosen where "a" is right; a second submit
    finds no button. *)
Lemma submit_spec_witness :
  let qs := demoBank 3 in
  let s := run qs (initial qs keepOrder) [ClickStart 0; ClickOption "b"] in
  let s' := step qs s ClickSubmit in
  answers s' = [{| questionId := 1; selectedOption := "b"; isCorrect := false |}]
  /\ isSubmitted s' = true
  /\ step qs s' ClickSubmit = s'.
Proof.
  intros qs s s'.
  assert (Hr : reachable qs s).
  { apply reachable_run. constructor. apply in_range_keepOrder. }
  destruct (submit_spec qs s) as (Hstep & _ & _ & _).
  destruct (Hstep "b") as (q & Hq & Heq);
    [exact Hr|vm_compute; reflexivity|vm_compute; reflexivity
    |vm_compute; reflexivity|discriminate|].
  assert (Hq1 : q = demoQuestion Beginner Tense 1).
  { assert (Hcur : currentQuestion s = Some (demoQuestion Beginner Tense 1))
      by (vm_compute; reflexivity).
    rewrite Hcur in Hq. by injection Hq. }
  subst q s'. rewrite Heq.
  split; [vm_compute; reflexivity|]. split; [reflexivity|].
  destruct (submit_spec qs (step qs s ClickSubmit)) as (_ & _ & Hlocked & _).
  rewrite <- Heq. apply Hlocked. right. rewrite Heq. reflexivity.
Defined.

(** ** [start] *)

Lemma filteredQuestions_nil_length (s : State) :
  filteredQuestions s = [] <-> (length (filteredQuestions s) =? 0)%nat = true.
Proof. rewrite Nat.eqb_eq. split; [by intros ->|apply length_zero_iff_nil]. Qed.

(** A start from the home view of a session with questions to show. *)
Lemma start_from_home (questions : list Question) (s : State) (now : Z) :
  reachable questions s -> view s = HomeView -> filteredQuestions s <> [] ->
  let s' := step questions s (ClickStart now) in
  s' = handleStart now s
  /\ isStarted s' = true /\ isFinished s' = false /\ view s' = QuestionView
  /\ startTime s' = Some now
  /\ (forall d, timerDuration s = Some d -> timeRemaining s' = Some d)
  /\ (timerDuration s = None -> timeRemaining s' = None)
  /\ s' |> setIsStarted (isStarted s) |> setStartTime (startTime s)
        |> setTimeRemaining (timeRemaining s) = s.
Proof.
  intros Hr Hv Hne s'.
  pose proof (reachable_Inv _ _ Hr) as [_ _ _ _ Hhome Htimer _ _].
  destruct (Hhome (view_home s Hv)) as (Hi & Ha & Hsub & Hfin & Htr).
  assert (Hlen : (length (filteredQuestions s) =? 0)%nat = false).
  { apply Nat.eqb_neq. intros H0. by apply length_zero_iff_nil in H0. }
  assert (Hoff : offered questions s (ClickStart now) = true).
  { simpl. rewrite Hlen, bool_decide_eq_true_2; done. }
  assert (Heff : timerEffect (handleStart now s) = handleStart now s).
  { unfold handleStart. rewrite Hlen.
    destruct (truthy_num (timerDuration s)) eqn:Htd.
    - destruct (truthy_num_choice _ Htimer Htd) as (n & Hn & Hpos).
      unfold timerEffect, timerRunning. simpl. rewrite Hn, Hfin. simpl.
      by destruct (Z.ltb_spec 0 n); [|lia].
    - unfold timerEffect, timerRunning. simpl. by rewrite Htr, Hfin. }
  assert (Hs' : s' = handleStart now s).
  { subst s'. unfold step. rewrite Hoff. exact Heff. }
  rewrite Hs'. unfold handleStart, view. rewrite Hlen.
  destruct (timerChoices_truthy _ Htimer) as [Hn|(n & Hn & Hpos)]; rewrite Hn; simpl.
  - unfold filteredQuestions in *. simpl. rewrite Hlen, Hfin, Htr.
    repeat split; try done.
    destruct s; simpl in *; by subst.
  - destruct (Z.eqb_spec n 0); [lia|]. simpl.
    unfold filteredQuestions in *. simpl. rewrite Hlen, Hfin.
    repeat split; try done.
    by destruct s.
Qed.

(** C8.  With an empty filtered set, [handleStart] changes nothing (and the
    start button is disabled, so the event changes nothing either).  From
    the home view of a session with a non-empty filtered set, it sets the
    started flag (the question view is shown, the session is not finished),
    records the timestamp, sets the remaining time to the configured timer
    duration if there is one, and changes nothing else. *)
Theorem start_spec (questions : list Question) (s : State) (now : Z) :
  (filteredQuestions s = [] ->
     handleStart now s = s /\ step questions s (ClickStart now) = s)
  /\ (filteredQuestions s <> [] ->
      forall d, timerDuration s = Some d -> d <> 0 ->
      handleStart now s =
        s |> setIsStarted true |> setStartTime (Some now) |> setTimeRemaining (Some d))
  /\ (reachable questions s -> view s = HomeView -> filteredQuestions s <> [] ->
      let s' := step questions s (ClickStart now) in
      s' = handleStart now s
      /\ isStarted s' = true /\ isFinished s' = false /\ view s' = QuestionView
      /\ startTime s' = Some now
      /\ (forall d, timerDuration s = Some d -> timeRemaining s' = Some d)
      /\ (timerDuration s = None -> timeRemaining s' = None)
      /\ s' |> setIsStarted (isStarted s) |> setStartTime (startTime s)
            |> setTimeRemaining (timeRemaining s) = s).
Proof.
  split; [|split].
  - intros He. assert (Hs : handleStart now s = s).
    { unfold handleStart. by rewrite (proj1 (filteredQuestions_nil_length s) He). }
    split; [done|]. unfold step. cbn [offered].
    rewrite (proj1 (filteredQuestions_nil_length s) He). simpl.
    by rewrite andb_false_r.
  - intros Hne d Hd Hd0. unfold handleStart.
    destruct (Nat.eqb_spec (length (filteredQuestions s)) 0) as [H0|_].
    { by apply length_zero_iff_nil in H0. }
    rewrite Hd. simpl. by destruct (Z.eqb_spec d 0).
  - apply start_from_home.
Qed.

(** Scenario A with the two-minute timer: 20 questions, no filters. *)
Lemma start_spec_witness :
  let qs := demoBank 20 in
  let s := step qs (initial qs keepOrder) (ClickTimer (Some 120)) in
  let s' := step qs s (ClickStart 1000) in
  length (filteredQuestions s) = 20%nat
  /\ isStarted s' = true /\ startTime s' = Some 1000 /\ timeRemaining s' = Some 120.
Proof.
  intros qs s s'.
  assert (Hr : reachable qs s).
  { constructor. constructor. apply in_range_keepOrder. }
  destruct (start_spec qs s 1000) as (_ & _ & Hstart).
  destruct Hstart as (_ & Hst & _ & _ & Htime & Hrem & _);
    [exact Hr | by vm_compute | by vm_compute |].
  split; [by vm_compute|]. split; [exact Hst|]. split; [exact Htime|].
  apply Hrem. by vm_compute.
Defined.

(** ** Filter changes during a session *)

(** C9.  The two selects of the question view set their filter, reset the
    index to 0 and clear the answers, and leave every other cell alone, in
    particular the selection and the submitted flag.  So when the question on
    screen had been submitted, the first question of the newly filtered set
    is shown as submitted, with the old selection, while no answer is
    recorded. *)
Theorem filter_change_keeps_submission (questions : list Question) (s : State)
    (fd : FilterOf Difficulty) (fc : FilterOf GrammarCategory) :
  onChangeDifficulty fd s =
    {| isStarted := isStarted s; currentIndex := 0;
       selectedOptionId := selectedOptionId s; isSubmitted := isSubmitted s;
       answers := []; isFinished := isFinished s;
       filterDifficulty := fd; filterCategory := filterCategory s;
       timerDuration := timerDuration s; timeRemaining := timeRemaining s;
       startTime := startTime s; allQuestions := allQuestions s |}
  /\ onChangeCategory fc s =
    {| isStarted := isStarted s; currentIndex := 0;
       selectedOptionId := selectedOptionId s; isSubmitted := isSubmitted s;
       answers := []; isFinished := isFinished s;
       filterDifficulty := filterDifficulty s; filterCategory := fc;
       timerDuration := timerDuration s; timeRemaining := timeRemaining s;
       startTime := startTime s; allQuestions := allQuestions s |}
  /\ (reachable questions s -> view s = QuestionView ->
      step questions s (SelectDifficulty fd) = onChangeDifficulty fd s
      /\ step questions s (SelectCategory fc) = onChangeCategory fc s)
  /\ (isSubmitted s = true ->
      forall s', s' = onChangeDifficulty fd s \/ s' = onChangeCategory fc s ->
      isSubmitted s' = true /\ selectedOptionId s' = selectedOptionId s
      /\ answers s' = [] /\ currentIndex s' = 0
      /\ currentQuestion s' = head (filteredQuestions s')).
Proof.
  split; [done|]. split; [done|]. split.
  - intros Hr Hv. unfold step. cbn [offered handle].
    rewrite bool_decide_eq_true_2 by done.
    apply view_question in Hv. destruct Hv as (_ & Hf & _).
    pose proof (reachable_settled _ _ Hr) as Hset.
    split; by apply (timerEffect_after s).
  - intros Hsub s' [->| ->]; simpl; repeat split; try done.
    + unfold currentQuestion, at_index. simpl. by destruct (filteredQuestions _).
    + unfold currentQuestion, at_index. simpl. by destruct (filteredQuestions _).
Qed.

(** The first (beginner) question is answered wrongly and submitted, then the
    difficulty select is set to intermediate. *)
Lemma filter_change_keeps_submission_witness :
  let qs := mixedBank in
  let s := run qs (initial qs keepOrder) [ClickStart 0; ClickOption "b"; ClickSubmit] in
  let s' := step qs s (SelectDifficulty (Only Intermediate)) in
  length (answers s) = 1%nat
  /\ view s' = QuestionView
  /\ isSubmitted s' = true /\ selectedOptionId s' = Some "b" /\ answers s' = []
  /\ currentQuestion s' = Some (demoQuestion Intermediate Tense 2)
  /\ offered qs s' ClickNext = true /\ offered qs s' ClickSubmit = false.
Proof.
  intros qs s s'.
  assert (Hr : reachable qs s).
  { apply reachable_run. constructor. apply in_range_keepOrder. }
  destruct (filter_change_keeps_submission qs s (Only Intermediate) All)
    as (_ & _ & Hstep & Hkeep).
  destruct (Hstep Hr) as [Heq _]; [by vm_compute|].
  assert (Hsub : isSubmitted s = true) by (by vm_compute).
  destruct (Hkeep Hsub s') as (H1 & H2 & H3 & _ & H5).
  { left. exact Heq. }
  split; [by vm_compute|]. split; [by vm_compute|].
  split; [exact H1|]. split; [rewrite H2; vm_compute; reflexivity|].
  split; [exact H3|].
  split; [rewrite H5; vm_compute; reflexivity|].
  split; vm_compute; reflexivity.
Defined.

(** ** [restart] *)

(** C10.  [handleRestart] draws a new sample and resets the index, the
    selection, the submitted flag, the answers, the finished and started
    flags and the remaining time; the two filters and the timer duration (and
    the recorded start time) keep their values, so the session started next
    filters with the same filters and runs on the same timer setting. *)
Theorem restart_keeps_configuration (questions : list Question)
    (d : Shuffle.draws) (s : State) :
  handleRestart questions d s =
    {| isStarted := false; currentIndex := 0; selectedOptionId := None;
       isSubmitted := false; answers := []; isFinished := false;
       filterDifficulty := filterDifficulty s;
       filterCategory := filterCategory s;
       timerDuration := timerDuration s;
       timeRemaining := None; startTime := startTime s;
       allQuestions := sample questions d |}
  /\ (view s = ResultsView -> Shuffle.in_range d (length questions) ->
      step questions s (ClickRestart d) = handleRestart questions d s)
  /\ (forall now, let s' := handleStart now (handleRestart questions d s) in
      filterDifficulty s' = filterDifficulty s
      /\ filterCategory s' = filterCategory s
      /\ timerDuration s' = timerDuration s
      /\ (isStarted s' = true -> truthy_num (timerDuration s) = true ->
          timeRemaining s' = timerDuration s)).
Proof.
  split; [done|]. split.
  - intros Hv Hd. unfold step. cbn [offered handle].
    rewrite bool_decide_eq_true_2 by done.
    by rewrite (proj2 (in_rangeb_spec d (length questions)) Hd).
  - intros now s'. subst s'. unfold handleStart.
    destruct (length _ =? 0)%nat; [by simpl|].
    change (timerDuration (handleRestart questions d s)) with (timerDuration s).
    destruct (truthy_num (timerDuration s)); simpl; repeat split; done.
Qed.

(** A finished two-minute session on intermediate questions is restarted
    and started again. *)
Lemma restart_keeps_configuration_witness :
  let qs := mixedBank in
  let s := run qs (initial qs keepOrder)
             [ClickDifficulty (Only Intermediate); ClickTimer (Some 120);
              ClickStart 0; ClickOption "a"; ClickSubmit; ClickNext] in
  let s' := step qs s (ClickRestart pickFirst) in
  view s = ResultsView /\ view s' = HomeView
  /\ filterDifficulty s' = Only Intermediate /\ timerDuration s' = Some 120
  /\ timeRemaining s' = None
  /\ timeRemaining (step qs s' (ClickStart 5)) = Some 120.
Proof.
  intros qs s s'.
  destruct (restart_keeps_configuration qs pickFirst s) as (Heq & Hstep & Hnext).
  assert (Hs' : s' = handleRestart qs pickFirst s).
  { apply Hstep; [by vm_compute | apply in_range_pickFirst]. }
  rewrite Hs', Heq. vm_compute. repeat split; reflexivity.
Defined.

(** ** Timer *)

Lemma tick_step (questions : list Question) (s : State) (t : Z) :
  isStarted s = true -> isFinished s = false -> timeRemaining s = Some t -> 0 < t ->
  step questions s Tick =
    s |> setTimeRemaining (Some (t - 1)) |> setIsFinished (bool_decide (t = 1)).
Proof.
  intros Hs Hf Ht Hpos. unfold step. cbn [offered handle].
  unfold timerRunning, tick, timerEffect, timerRunning. rewrite Hs, Hf, Ht. simpl.
  destruct (Z.ltb_spec 0 t); [|lia]. rewrite Hs, Hf. simpl.
  destruct (Z.ltb_spec 0 (t - 1)).
  - rewrite bool_decide_eq_false_2 by lia. destruct s; simpl in *; by subst.
  - assert (t = 1) as -> by lia. done.
Qed.

Lemma tick_idle (questions : list Question) (s : State) :
  timerRunning s = false -> step questions s Tick = s.
Proof. intros Hr. unfold step. cbn [offered]. by rewrite Hr. Qed.

Lemma run_cons (questions : list Question) (s : State) (e : Event) (es : list Event) :
  run questions s (e :: es) = run questions (step questions s e) es.
Proof. reflexivity. Qed.

(** [k] ticks of a timer that has [t >= k] seconds left. *)
Lemma ticks_countdown (questions : list Question) (k : nat) (s : State) (t : Z) :
  isStarted s = true -> isFinished s = false -> timeRemaining s = Some t ->
  Z.of_nat k <= t ->
  run questions s (replicate k Tick) =
    s |> setTimeRemaining (Some (t - Z.of_nat k))
      |> setIsFinished (bool_decide (0 < t /\ Z.of_nat k = t)).
Proof.
  revert s t. induction k as [|k IH]; intros s t Hs Hf Ht Hk.
  - simpl. rewrite Z.sub_0_r, bool_decide_eq_false_2 by lia.
    destruct s; simpl in *; by subst.
  - change (replicate (S k) Tick) with (Tick :: replicate k Tick).
    rewrite run_cons, (tick_step questions s t) by (done || lia).
    destruct (decide (t = 1)) as [->|Hne].
    + assert (k = O) as -> by lia. done.
    + rewrite (bool_decide_eq_false_2 (t = 1)) by done.
      rewrite (IH _ (t - 1)); simpl; try done; try lia.
      replace (t - 1 - Z.of_nat k) with (t - Z.of_nat (S k)) by lia.
      unfold setTimeRemaining, setIsFinished. simpl. do 2 f_equal.
      apply bool_decide_ext. lia.
Qed.

(** C4.  While the session is started, not finished and the remaining time
    is set and positive, a tick decrements the remaining time by exactly 1
    and changes nothing else, except that the tick that reaches 0 also sets
    the finished flag; the answers are those recorded by submissions before,
    a pending selection is not recorded.  A tick is delivered in no other
    state.  A session started from the home
    view with the two-minute timer and left alone is not finished after
    fewer than 120 ticks and is finished after 120 ticks, showing the
    results with the answers it had at the start. *)
Theorem timer_countdown (questions : list Question) (s : State) :
  (forall t, isStarted s = true -> isFinished s = false ->
     timeRemaining s = Some t -> 0 < t ->
     let s' := step questions s Tick in
     timeRemaining s' = Some (t - 1)
     /\ (isFinished s' = true <-> t - 1 = 0)
     /\ answers s' = answers s
     /\ s' |> setTimeRemaining (Some t) |> setIsFinished false = s)
  /\ (timerRunning s = false -> step questions s Tick = s)
  /\ (reachable questions s -> view s = HomeView -> timerDuration s = Some 120 ->
      filteredQuestions s <> [] ->
      forall now, let s0 := step questions s (ClickStart now) in
      (forall k, (k < 120)%nat ->
         let sk := run questions s0 (replicate k Tick) in
         isFinished sk = false /\ timeRemaining sk = Some (120 - Z.of_nat k))
      /\ (let s' := run questions s0 (replicate 120 Tick) in
          isFinished s' = true /\ view s' = ResultsView
          /\ timeRemaining s' = Some 0 /\ answers s' = answers s)).
Proof.
  split; [|split].
  - intros t Hs Hf Ht Hpos s'. subst s'. rewrite (tick_step questions s t) by done.
    simpl. split; [done|]. split.
    + rewrite bool_decide_eq_true. lia.
    + split; [done|]. destruct s; simpl in *; by subst.
  - apply tick_idle.
  - intros Hr Hv Htd Hne now s0.
    destruct (start_from_home questions s now Hr Hv Hne)
      as (_ & Hst & Hfin & _ & _ & Hrem & _ & Hframe).
    fold s0 in Hst, Hfin, Hrem, Hframe. specialize (Hrem 120 Htd).
    assert (Hans : answers s0 = answers s).
    { apply (f_equal answers) in Hframe. exact Hframe. }
    split.
    + intros k Hk sk. subst sk.
      rewrite (ticks_countdown questions k s0 120) by (done || lia). simpl.
      split; [|done]. apply bool_decide_eq_false_2. lia.
    + intros s'. subst s'.
      rewrite (ticks_countdown questions 120 s0 120) by (done || lia).
      unfold view. simpl. rewrite Hst. simpl. done.
Qed.

(** Scenario C: the two-minute timer runs out while an option is selected
    but not submitted. *)
Lemma timer_countdown_witness :
  let qs := demoBank 3 in
  let s := step qs (initial qs keepOrder) (ClickTimer (Some 120)) in
  let s0 := step qs s (ClickStart 0) in
  let s1 := run qs s0 (answerWith "a" ++ [ClickOption "b"] ++ replicate 119 Tick) in
  let s2 := step qs s1 Tick in
  isFinished (run qs s0 (replicate 120 Tick)) = true
  /\ timeRemaining s1 = Some 1 /\ isFinished s1 = false
  /\ timeRemaining s2 = Some 0 /\ isFinished s2 = true
  /\ selectedOptionId s2 = Some "b" /\ length (answers s2) = 1%nat.
Proof.
  intros qs s s0 s1 s2.
  destruct (timer_countdown qs s) as (_ & _ & Hscenario).
  destruct (Hscenario) with (now := 0) as (_ & Hfin & _).
  { constructor. constructor. apply in_range_keepOrder. }
  { vm_compute; reflexivity. }
  { vm_compute; reflexivity. }
  { vm_compute; discriminate. }
  split; [exact Hfin|].
  destruct (timer_countdown qs s1) as (Htick & _ & _).
  destruct (Htick 1) as (Ht & Hf & Ha & _); try (vm_compute; reflexivity).
  fold s2 in Ht, Hf, Ha.
  split; [vm_compute; reflexivity|]. split; [vm_compute; reflexivity|].
  split; [exact Ht|]. split; [by apply Hf|].
  split; [vm_compute; reflexivity|]. rewrite Ha. vm_compute; reflexivity.
Defined.

(** ** [shuffleArray] is the Fisher-Yates shuffle *)

Import Shuffle.

(** *** The random index

    [Math.random() * (i + 1)] is a product of doubles.  The lemmas below
    follow the rounding of such a product through [SFmul]: the mantissas are
    multiplied exactly, the product is shifted to 53 bits and rounded to
    nearest, which adds at most half a unit of the last place. *)

Lemma fexp_eq e : fexp prec emax e = Z.max (e - 53) (-1074).
Proof. reflexivity. Qed.

Lemma pow2_pred (d : Z) : 1 <= d -> 2 ^ d = 2 * 2 ^ (d - 1).
Proof. intros Hd. rewrite <- Z.pow_succ_r by lia. f_equal. lia. Qed.

Lemma digits2_pos_bounds (p : positive) :
  2 ^ (Z.pos (digits2_pos p) - 1) <= Z.pos p < 2 ^ Z.pos (digits2_pos p).
Proof.
  induction p as [p IH|p IH|]; cbn [digits2_pos]; [| |simpl; lia];
    pose proof (pow2_pred (Z.pos (digits2_pos p))) as Hp.
  - rewrite Pos2Z.inj_succ. change (Z.pos p~1) with (2 * Z.pos p + 1).
    replace (Z.succ (Z.pos (digits2_pos p)) - 1) with (Z.pos (digits2_pos p)) by lia.
    rewrite Z.pow_succ_r by lia. lia.
  - rewrite Pos2Z.inj_succ. change (Z.pos p~0) with (2 * Z.pos p).
    replace (Z.succ (Z.pos (digits2_pos p)) - 1) with (Z.pos (digits2_pos p)) by lia.
    rewrite Z.pow_succ_r by lia. lia.
Qed.

Lemma shr_1_spec (mrs : shr_record) :
  0 <= shr_m mrs ->
  shr_m (shr_1 mrs) = shr_m mrs / 2 /\ shr_r (shr_1 mrs) = Z.odd (shr_m mrs).
Proof.
  destruct mrs as [m r s]. destruct m as [|[p|p|]|p]; simpl; intros Hm; try lia; split; try done.
  - apply (Z.div_unique _ _ _ 1); lia.
  - apply (Z.div_unique _ _ _ 0); lia.
Qed.

Lemma shr_1_inv (P k : Z) (mrs : shr_record) :
  0 <= P -> 0 <= k ->
  shr_m mrs = P / 2 ^ k /\ (shr_r mrs = true -> 1 <= k /\ 2 ^ (k - 1) <= P mod 2 ^ k) ->
  shr_m (shr_1 mrs) = P / 2 ^ (k + 1)
  /\ (shr_r (shr_1 mrs) = true -> 1 <= k + 1 /\ 2 ^ (k + 1 - 1) <= P mod 2 ^ (k + 1)).
Proof.
  intros HP Hk [Hm _].
  assert (Hpow : 0 < 2 ^ k) by (apply Z.pow_pos_nonneg; lia).
  assert (Hm0 : 0 <= shr_m mrs) by (rewrite Hm; apply Z.div_pos; lia).
  destruct (shr_1_spec mrs Hm0) as [-> ->]. rewrite Hm.
  rewrite Z.pow_add_r, Z.pow_1_r by lia. split.
  - rewrite Z.div_div by lia. done.
  - intros Hodd. split; [lia|].
    replace (k + 1 - 1) with k by lia.
    rewrite Z.rem_mul_r by lia. rewrite Zmod_odd, Hodd.
    pose proof (Z.mod_pos_bound P (2 ^ k) Hpow). lia.
Qed.

Lemma iter_pos_shr_1_inv (p : positive) : forall (P k : Z) (mrs : shr_record),
  0 <= P -> 0 <= k ->
  shr_m mrs = P / 2 ^ k /\ (shr_r mrs = true -> 1 <= k /\ 2 ^ (k - 1) <= P mod 2 ^ k) ->
  let mrs' := SpecFloat.iter_pos shr_1 p mrs in
  shr_m mrs' = P / 2 ^ (k + Z.pos p)
  /\ (shr_r mrs' = true ->
      1 <= k + Z.pos p /\ 2 ^ (k + Z.pos p - 1) <= P mod 2 ^ (k + Z.pos p)).
Proof.
  induction p as [p IH|p IH|]; intros P k mrs HP Hk Hinv; cbn [SpecFloat.iter_pos]; cbv zeta.
  - replace (k + Z.pos p~1) with (k + 1 + Z.pos p + Z.pos p) by lia.
    apply IH; [done|lia|]. apply IH; [done|lia|]. by apply shr_1_inv.
  - replace (k + Z.pos p~0) with (k + Z.pos p + Z.pos p) by lia.
    apply IH; [done|lia|]. by apply IH.
  - by apply shr_1_inv.
Qed.

Lemma roundedMantissa_bounds (mrs : shr_record) :
  shr_m mrs <= roundedMantissa mrs <= shr_m mrs + (if shr_r mrs then 1 else 0).
Proof.
  destruct mrs as [m [|] [|]]; unfold roundedMantissa; simpl; try lia.
  destruct (Z.even m); lia.
Qed.

(** Shifting [P] right by [p] bits and rounding to nearest. *)
Lemma shr_round (P : Z) (p : positive) :
  0 <= P ->
  let mrs := SpecFloat.iter_pos shr_1 p (Build_shr_record P false false) in
  P / 2 ^ Z.pos p <= roundedMantissa mrs <= P / 2 ^ Z.pos p + 1
  /\ roundedMantissa mrs * 2 ^ Z.pos p <= P + 2 ^ (Z.pos p - 1).
Proof.
  intros HP mrs.
  destruct (iter_pos_shr_1_inv p P 0 (Build_shr_record P false false)) as [Hm Hr];
    [done|done| |].
  { simpl. rewrite Z.div_1_r. by split. }
  fold mrs in Hm, Hr. rewrite Z.add_0_l in Hm, Hr.
  pose proof (roundedMantissa_bounds mrs) as [Hlo Hhi].
  assert (Hpow : 0 < 2 ^ Z.pos p) by (apply Z.pow_pos_nonneg; lia).
  pose proof (Z.div_pos P (2 ^ Z.pos p) HP Hpow) as Hdiv.
  assert (Hle : P / 2 ^ Z.pos p <= P).
  { apply Z.div_le_upper_bound; [done|]. nia. }
  pose proof (Z.div_mod P (2 ^ Z.pos p)) as Hdm.
  pose proof (Z.mod_pos_bound P (2 ^ Z.pos p) Hpow) as Hmod.
  pose proof (pow2_pred (Z.pos p)) as Hpp.
  split; [destruct (shr_r mrs); lia|].
  destruct (shr_r mrs).
  - destruct Hr as [_ Hr]; [done|]. nia.
  - nia.
Qed.

Lemma Zdigits2_le (M k : Z) : 0 <= M < 2 ^ k -> 0 <= k -> 0 <= Zdigits2 M <= k.
Proof.
  intros [HM Hlt] Hk. destruct M as [|m|m]; simpl; [lia| |lia].
  pose proof (digits2_pos_bounds m) as [Hlo _].
  assert (Hpow : 2 ^ (Z.pos (digits2_pos m) - 1) < 2 ^ k) by lia.
  apply Z.pow_lt_mono_r_iff in Hpow; lia.
Qed.

(** Aligning a mantissa that was already rounded: nothing is added. *)
Lemma shr_fexp_exact (M e : Z) :
  0 <= M ->
  e <= snd (shr_fexp prec emax M e loc_Exact)
       <= Z.max e (fexp prec emax (Zdigits2 M + e))
  /\ shr_m (fst (shr_fexp prec emax M e loc_Exact))
     = M / 2 ^ (snd (shr_fexp prec emax M e loc_Exact) - e).
Proof.
  intros HM. unfold shr_fexp, shr. cbn [shr_record_of_loc].
  destruct (fexp prec emax (Zdigits2 M + e) - e) as [|p|p] eqn:Hs; cbn [fst snd shr_m].
  - rewrite Z.sub_diag, Z.div_1_r. lia.
  - destruct (iter_pos_shr_1_inv p M 0 (Build_shr_record M false false)) as [Hm _];
      [done|done| |].
    { simpl. rewrite Z.div_1_r. by split. }
    rewrite Z.add_0_l in Hm. rewrite Hm.
    replace (e + Z.pos p - e) with (Z.pos p) by lia. lia.
  - rewrite Z.sub_diag, Z.div_1_r. lia.
Qed.

Lemma shr_fexp_aligned (P : positive) (E : Z) :
  fexp prec emax (Z.pos (digits2_pos P) + E) - E <= 0 ->
  shr_fexp prec emax (Z.pos P) E loc_Exact = (Build_shr_record (Z.pos P) false false, E).
Proof.
  intros Hs. unfold shr_fexp, shr. cbn [Zdigits2 shr_record_of_loc].
  by destruct (fexp prec emax (Z.pos (digits2_pos P) + E) - E) as [|p|p] eqn:Heq; [|lia|].
Qed.

(** A product that needs no rounding is returned as it is. *)
Lemma binary_round_aux_aligned (P : positive) (E : Z) :
  fexp prec emax (Z.pos (digits2_pos P) + E) - E <= 0 -> E <= emax - prec ->
  binary_round_aux prec emax false (Z.pos P) E loc_Exact = S754_finite false P E.
Proof.
  intros Hs HE. unfold binary_round_aux. rewrite shr_fexp_aligned by done.
  cbn [shr_m loc_of_shr_record round_nearest_even].
  rewrite shr_fexp_aligned by done. cbn [shr_m].
  by rewrite (proj2 (Z.leb_le _ _) HE).
Qed.

(** The double that [P * 2 ^ E] is rounded to: the mantissa [m] (0 for a
    zero) and the exponent [e].  It is not below [P * 2 ^ E] rounded down to
    a multiple of [2 ^ e], and exceeds [P * 2 ^ E] by at most half a unit of
    the last place. *)
Lemma binary_round_aux_bounds (P : positive) (E : Z) :
  Z.pos P < 2 ^ 106 -> E <= -53 ->
  let s := fexp prec emax (Z.pos (digits2_pos P) + E) - E in
  exists m e,
    binary_round_aux prec emax false (Z.pos P) E loc_Exact
    = match m with Z.pos p => S754_finite false p e | _ => S754_zero false end
    /\ E <= e
    /\ Z.pos P / 2 ^ (e - E) <= m
    /\ m * 2 ^ (e - E) <= Z.pos P + (if 0 <? s then 2 ^ (s - 1) else 0)
    /\ (Z.pos P < 2 ^ (52 - E) -> e <= 0).
Proof.
  intros HP HE s.
  destruct (Z.ltb_spec 0 s) as [Hs|Hs].
  2:{ exists (Z.pos P), E. rewrite binary_round_aux_aligned; [|done|unfold emax, prec; lia].
      rewrite Z.sub_diag, Z.div_1_r. simpl. repeat split; lia. }
  remember (binary_round_aux prec emax false (Z.pos P) E loc_Exact) as res eqn:Hres.
  unfold binary_round_aux, shr_fexp at 1, shr in Hres.
  cbn [Zdigits2 shr_record_of_loc] in Hres.
  fold s in Hres. destruct s as [|p|p] eqn:Hsp; [lia| |lia].
  set (mrs := SpecFloat.iter_pos shr_1 p _) in Hres.
  change (round_nearest_even (shr_m mrs) (loc_of_shr_record mrs))
    with (roundedMantissa mrs) in Hres.
  destruct (shr_round (Z.pos P) p) as ([HM0 HM1] & HM2); [lia|]. fold mrs in HM0, HM1, HM2.
  assert (Hpow : 0 < 2 ^ Z.pos p) by (apply Z.pow_pos_nonneg; lia).
  assert (Hdiv : 0 <= Z.pos P / 2 ^ Z.pos p) by (apply Z.div_pos; lia).
  destruct (shr_fexp_exact (roundedMantissa mrs) (E + Z.pos p)) as ([He1 He2] & Hm);
    [lia|].
  destruct (shr_fexp prec emax (roundedMantissa mrs) (E + Z.pos p) loc_Exact) as [mrs'' e''].
  cbn [fst snd] in *.
  assert (Hpow' : 0 < 2 ^ (e'' - (E + Z.pos p))) by (apply Z.pow_pos_nonneg; lia).
  assert (Hm0 : 0 <= shr_m mrs'') by (rewrite Hm; apply Z.div_pos; lia).
  pose proof (digits2_pos_bounds P) as [HdP HdP'].
  set (d := Z.pos (digits2_pos P)) in *.
  assert (Hd : d <= 106).
  { assert (Hlt : 2 ^ (d - 1) < 2 ^ 106) by lia.
    apply Z.pow_lt_mono_r_iff in Hlt; lia. }
  rewrite fexp_eq in He2. subst s. rewrite fexp_eq in Hsp.
  (* the rounded mantissa has at most [d - p + 1] bits *)
  assert (HMw : roundedMantissa mrs < 2 ^ (Z.max (d - Z.pos p) 0 + 1)).
  { rewrite Z.pow_add_r, Z.pow_1_r by lia.
    assert (Z.pos P / 2 ^ Z.pos p < 2 ^ Z.max (d - Z.pos p) 0); [|lia].
    apply Z.div_lt_upper_bound; [done|]. rewrite <- Z.pow_add_r by lia.
    eapply Z.lt_le_trans; [exact HdP'|]. apply Z.pow_le_mono_r; lia. }
  assert (HdM : 0 <= Zdigits2 (roundedMantissa mrs) <= Z.max (d - Z.pos p) 0 + 1).
  { apply Zdigits2_le; lia. }
  exists (shr_m mrs''), e''.
  assert (Hfin : (e'' <=? emax - prec) = true) by (apply Z.leb_le; unfold emax, prec; lia).
  split.
  { rewrite Hres. destruct (shr_m mrs'') as [|m|m]; [done| |lia]. by rewrite Hfin. }
  replace (e'' - E) with (Z.pos p + (e'' - (E + Z.pos p))) by lia.
  rewrite Z.pow_add_r by lia.
  split; [lia|]. split; [|split].
  - rewrite <- Z.div_div by lia. rewrite Hm. apply Z.div_le_mono; lia.
  - pose proof (Z.mul_div_le (roundedMantissa mrs) (2 ^ (e'' - (E + Z.pos p))) Hpow').
    rewrite Hm. nia.
  - intros Hsmall.
    assert (HdE : d + E <= 52).
    { assert (Hlt : 2 ^ (d - 1) < 2 ^ (52 - E)) by lia.
      apply Z.pow_lt_mono_r_iff in Hlt; lia. }
    lia.
Qed.

Lemma Pos_iter_xO (m d : positive) :
  Z.pos (Pos.iter xO m d) = Z.pos m * 2 ^ Z.pos d
  /\ digits2_pos (Pos.iter xO m d) = (digits2_pos m + d)%positive.
Proof.
  induction d as [|d [IH1 IH2]] using Pos.peano_ind.
  - simpl. split; lia.
  - rewrite Pos.iter_succ. cbn [digits2_pos]. rewrite IH2.
    change (Z.pos (Pos.iter xO m d)~0) with (2 * Z.pos (Pos.iter xO m d)).
    rewrite IH1, Pos2Z.inj_succ, Z.pow_succ_r by lia. split; lia.
Qed.

(** An integer below 2^53 scaled by a power of two is a double: its
    mantissa is the integer shifted to 53 bits. *)
Lemma binary_round_exact (p : positive) (e0 : Z) :
  Z.pos p < 2 ^ 53 -> -1021 <= e0 <= 0 ->
  exists m e,
    binary_round prec emax false p e0 = S754_finite false m e
    /\ valid_binary (S754_finite false m e) = true
    /\ e0 - 52 <= e <= e0 /\ Z.pos m = Z.pos p * 2 ^ (e0 - e) /\ Z.pos m < 2 ^ 53.
Proof.
  intros Hp He0. unfold binary_round, shl_align.
  pose proof (digits2_pos_bounds p) as [Hlo Hhi].
  assert (Hd : Z.pos (digits2_pos p) <= 53).
  { assert (Hpow : 2 ^ (Z.pos (digits2_pos p) - 1) < 2 ^ 53) by lia.
    apply Z.pow_lt_mono_r_iff in Hpow; lia. }
  rewrite fexp_eq.
  destruct (Z.max (Z.pos (digits2_pos p) + e0 - 53) (-1074) - e0) as [|k|k] eqn:Hk; [|lia|].
  - exists p, e0. rewrite binary_round_aux_aligned.
    + split; [done|]. split.
      { unfold valid_binary, bounded, canonical_mantissa. rewrite fexp_eq.
        apply andb_true_intro. split; [apply Z.eqb_eq|apply Z.leb_le; unfold emax, prec]; lia. }
      split; [lia|]. rewrite Z.sub_diag. simpl. lia.
    + rewrite fexp_eq. lia.
    + unfold emax, prec. lia.
  - destruct (Pos_iter_xO p k) as [Hv Hdig].
    exists (Pos.iter xO p k), (Z.max (Z.pos (digits2_pos p) + e0 - 53) (-1074)).
    rewrite binary_round_aux_aligned.
    + split; [done|]. split.
      { unfold valid_binary, bounded, canonical_mantissa. rewrite Hdig, fexp_eq.
        apply andb_true_intro. split; [apply Z.eqb_eq|apply Z.leb_le; unfold emax, prec]; lia. }
      split; [lia|].
      replace (e0 - Z.max (Z.pos (digits2_pos p) + e0 - 53) (-1074)) with (Z.pos k) by lia.
      split; [done|].
      pose proof (digits2_pos_bounds (Pos.iter xO p k)) as [_ Hlt].
      rewrite Hdig in Hlt. replace (Z.pos (digits2_pos p + k)) with 53 in Hlt by lia. done.
    + rewrite Hdig, fexp_eq. lia.
    + unfold emax, prec. lia.
Qed.

(** An integer in [1, 2^53) is a double. *)
Lemma number_spec (n : nat) :
  1 <= Z.of_nat n < 2 ^ 53 ->
  exists my ey,
    Prim2SF (number n) = S754_finite false my ey
    /\ -52 <= ey <= 0 /\ Z.pos my = Z.of_nat n * 2 ^ (- ey) /\ Z.pos my < 2 ^ 53.
Proof.
  intros Hn. unfold number. rewrite of_uint63_spec, Uint63.of_Z_spec.
  rewrite Z.mod_small by (change Uint63.wB with (2 ^ 63); lia).
  destruct (Z.of_nat n) as [|p|p] eqn:Hp; [lia| |lia].
  cbn [binary_normalize].
  destruct (binary_round_exact p 0) as (my & ey & -> & _ & Hey & Hmy & Hlt); [lia|lia|].
  exists my, ey. by rewrite Z.sub_0_l in Hmy.
Qed.

(** A number in [0, 1) is a zero or a positive double below [1]: at most
    [(2^53 - 1) * 2^(-53)]. *)
Lemma unit_interval_spec (r : float) :
  unit_interval r ->
  (exists s, Prim2SF r = S754_zero s)
  \/ exists mx ex,
       Prim2SF r = S754_finite false mx ex /\ ex <= -53 /\ Z.pos mx < 2 ^ 53.
Proof.
  intros [H0 H1]. rewrite leb_spec in H0. rewrite ltb_spec in H1.
  pose proof (Prim2SF_valid r) as Hv.
  change (Prim2SF 0) with (S754_zero false) in H0.
  change (Prim2SF 1) with (S754_finite false 4503599627370496 (-52)) in H1.
  destruct (Prim2SF r) as [s|s| |s m e]; [left; by exists s| | |].
  - destruct s; discriminate.
  - discriminate.
  - destruct s; [discriminate|]. right. exists m, e. split; [done|].
    unfold valid_binary, bounded, canonical_mantissa in Hv.
    apply andb_prop in Hv as [Hc _]. apply Z.eqb_eq in Hc. rewrite fexp_eq in Hc.
    pose proof (digits2_pos_bounds m) as [Hlo Hhi].
    unfold SFltb, SFcompare in H1.
    destruct (Z.compare_spec e (-52)) as [->|He|He]; [| |discriminate].
    + assert (Hp : Z.pos m < 4503599627370496).
      { apply Pos2Z.pos_lt_pos. unfold Pos.lt, Pos.compare.
        by destruct (Pos.compare_cont Eq m 4503599627370496). }
      clear H0 H1.
      assert (Hd : Z.pos (digits2_pos m) = 53) by lia.
      rewrite Hd in Hlo. change (2 ^ (53 - 1)) with 4503599627370496 in Hlo. lia.
    + clear H0 H1. split; [lia|].
      assert (Hd : Z.pos (digits2_pos m) <= 53) by lia.
      eapply Z.lt_le_trans; [exact Hhi|]. apply Z.pow_le_mono_r; lia.
Qed.

(** [Math.floor(Math.random() * (i + 1))] is an index in [0, i]: the
    rounded product is a finite number that is not negative and stays below
    [i + 1]. *)
Lemma Math_floor_product (r : float) (i : nat) :
  unit_interval r -> Z.of_nat i + 1 < 2 ^ 53 ->
  Number_isFinite (r * number (i + 1))
  /\ 0 <= Math_floor (r * number (i + 1)) <= Z.of_nat i.
Proof.
  intros Hr Hi. unfold Math_floor, Number_isFinite. rewrite mul_spec.
  destruct (number_spec (i + 1)) as (my & ey & Hn & Hey & Hmy & Hmy53); [lia|].
  rewrite Hn.
  destruct (unit_interval_spec r Hr) as [[s ->]|(mx & ex & -> & Hex & Hmx)].
  { simpl. split; [done|lia]. }
  unfold SF64mul, SFmul. cbn [xorb].
  set (E := ex + ey).
  assert (HP : Z.pos (mx * my) < 2 ^ 106).
  { rewrite Pos2Z.inj_mul. change (2 ^ 106) with (2 ^ 53 * 2 ^ 53). nia. }
  destruct (binary_round_aux_bounds (mx * my) E HP) as (m' & e & -> & HEe & _ & Hbound & _);
    [lia|].
  destruct m' as [|m|m]; [split; [done|lia]| |split; [done|lia]].
  split; [done|].
  set (n := Z.of_nat (i + 1)) in *.
  assert (Hlt : Z.pos m * 2 ^ (e - E) < n * 2 ^ (- E)).
  { replace (- E) with (- ey + - ex) by lia.
    rewrite Z.pow_add_r, Z.mul_assoc, <- Hmy by lia.
    eapply Z.le_lt_trans; [exact Hbound|]. rewrite Pos2Z.inj_mul.
    assert (HT : 2 ^ 53 <= 2 ^ (- ex)) by (apply Z.pow_le_mono_r; lia).
    pose proof (digits2_pos_bounds (mx * my)) as [Hlo _]. rewrite Pos2Z.inj_mul in Hlo.
    rewrite fexp_eq.
    destruct (Z.ltb_spec 0 (Z.max (Z.pos (digits2_pos (mx * my)) + E - 53) (-1074) - E))
      as [Hs|Hs]; [|nia].
    destruct (Z.max_spec (Z.pos (digits2_pos (mx * my)) + E - 53) (-1074)) as [[Hc ->]|[Hc ->]].
    - assert (HX : 2 ^ (-1074 - E - 1) < 2 ^ (- ex - 53)).
      { apply Z.pow_lt_mono_r; lia. }
      assert (HU : 2 ^ (- ex) = 2 ^ (- ex - 53) * 2 ^ 53).
      { rewrite <- Z.pow_add_r by lia. f_equal. lia. }
      assert (0 < 2 ^ (- ex - 53)) by (apply Z.pow_pos_nonneg; lia).
      nia.
    - set (d := Z.pos (digits2_pos (mx * my))) in *.
      replace (d + E - 53 - E - 1) with (d - 54) by lia.
      assert (HX : 2 ^ (d - 54) * 2 ^ 53 = 2 ^ (d - 1)).
      { rewrite <- Z.pow_add_r by lia. f_equal. lia. }
      nia. }
  assert (Hn0 : 0 < n) by lia.
  assert (Hfloor : (if 0 <=? e then Z.pos m * 2 ^ e else Z.pos m / 2 ^ (- e)) < n).
  { destruct (Z.leb_spec 0 e) as [He|He].
    - replace (e - E) with (e + - E) in Hlt by lia.
      rewrite Z.pow_add_r, Z.mul_assoc in Hlt by lia.
      assert (0 < 2 ^ (- E)) by (apply Z.pow_pos_nonneg; lia). nia.
    - apply Z.div_lt_upper_bound; [apply Z.pow_pos_nonneg; lia|].
      replace (- E) with (- e + (e - E)) in Hlt by lia.
      rewrite Z.pow_add_r in Hlt by lia.
      assert (0 < 2 ^ (e - E)) by (apply Z.pow_pos_nonneg; lia). nia. }
  assert (Hpos : 0 <= (if 0 <=? e then Z.pos m * 2 ^ e else Z.pos m / 2 ^ (- e))).
  { destruct (Z.leb_spec 0 e).
    - apply Z.mul_nonneg_nonneg; [lia|apply Z.pow_nonneg; lia].
    - apply Z.div_pos; [lia|apply Z.pow_pos_nonneg; lia]. }
  subst n. lia.
Qed.

(** Every index in [0, i] is drawn for some number that [Math.random()] can
    return: for [j], the least multiple [r] of [2 ^ -53] with
    [j <= r * (i + 1)]. *)
Lemma randomIndex_onto (i j : nat) :
  (j <= i)%nat -> Z.of_nat i + 1 <= 2 ^ 52 ->
  exists r, unit_interval r /\ randomIndex r i = j.
Proof.
  intros Hj Hi.
  destruct (number_spec (i + 1)) as (my & ey & Hn & Hey & Hmy & Hmy53); [lia|].
  set (n := Z.of_nat (i + 1)) in *.
  destruct (decide (j = O)) as [->|Hj0].
  { exists 0%float. split; [by split|].
    unfold randomIndex, Math_floor. rewrite mul_spec, Hn. done. }
  set (c := (Z.of_nat j * 2 ^ 53 + n - 1) / n).
  assert (Hn0 : 0 < n) by lia.
  assert (Hc1 : Z.of_nat j * 2 ^ 53 <= c * n < Z.of_nat j * 2 ^ 53 + n).
  { pose proof (Z.div_mod (Z.of_nat j * 2 ^ 53 + n - 1) n) as Hdm.
    pose proof (Z.mod_pos_bound (Z.of_nat j * 2 ^ 53 + n - 1) n Hn0) as Hmod.
    fold c in Hdm. lia. }
  assert (Hc2 : 1 <= c < 2 ^ 53) by nia.
  destruct c as [|cp|cp] eqn:Hc; [lia| |lia].
  destruct (binary_round_exact cp (-53)) as (mx & ex & Hr & Hvalid & Hex & Hmx & Hmx53);
    [lia|lia|].
  exists (SF2Prim (binary_round prec emax false cp (-53))).
  assert (HSF : Prim2SF (SF2Prim (binary_round prec emax false cp (-53)))
                = S754_finite false mx ex).
  { rewrite Hr. by apply Prim2SF_SF2Prim. }
  split.
  { split; [rewrite leb_spec|rewrite ltb_spec]; rewrite HSF.
    - done.
    - change (Prim2SF 1) with (S754_finite false 4503599627370496 (-52)).
      unfold SFltb, SFcompare. by rewrite (proj2 (Z.compare_lt_iff ex (-52))) by lia. }
  unfold randomIndex, Math_floor. rewrite mul_spec, HSF, Hn.
  unfold SF64mul, SFmul. cbn [xorb].
  set (E := ex + ey). set (K := -53 - E).
  assert (HP : Z.pos (mx * my) = c * n * 2 ^ K).
  { rewrite Pos2Z.inj_mul, Hmx, Hmy, Hc. unfold K, E.
    replace (-53 - (ex + ey)) with ((-53 - ex) + - ey) by lia.
    rewrite Z.pow_add_r by lia. fold n. lia. }
  rewrite Hc in HP.
  assert (HK : 0 < 2 ^ K) by (apply Z.pow_pos_nonneg; lia).
  assert (HE : 2 ^ (- E) = 2 ^ 53 * 2 ^ K).
  { rewrite <- Z.pow_add_r by lia. f_equal. lia. }
  destruct (binary_round_aux_bounds (mx * my) E) as (m' & e & -> & HEe & Hlow & Hup & Hexp).
  { rewrite Pos2Z.inj_mul. change (2 ^ 106) with (2 ^ 53 * 2 ^ 53). nia. }
  { lia. }
  assert (He : e <= 0).
  { apply Hexp. replace (52 - E) with (105 + K) by lia.
    rewrite HP, Z.pow_add_r by lia. change (2 ^ 105) with (2 ^ 53 * 2 ^ 52).
    apply Z.mul_lt_mono_pos_r; [done|]. nia. }
  assert (HeE : 2 ^ (- E) = 2 ^ (- e) * 2 ^ (e - E)).
  { rewrite <- Z.pow_add_r by lia. f_equal. lia. }
  assert (Hpe : 0 < 2 ^ (- e)) by (apply Z.pow_pos_nonneg; lia).
  assert (HpeE : 0 < 2 ^ (e - E)) by (apply Z.pow_pos_nonneg; lia).
  assert (Hlow' : Z.of_nat j * 2 ^ (- e) <= m').
  { etransitivity; [|exact Hlow]. apply Z.div_le_lower_bound; [done|].
    rewrite HP. nia. }
  assert (Hup' : m' < (Z.of_nat j + 1) * 2 ^ (- e)).
  { apply (Z.mul_lt_mono_pos_r (2 ^ (e - E))); [done|].
    eapply Z.le_lt_trans; [exact Hup|].
    rewrite <- Z.mul_assoc, <- HeE, HE, HP. rewrite fexp_eq.
    pose proof (digits2_pos_bounds (mx * my)) as [Hlo _]. rewrite HP in Hlo.
    destruct (Z.ltb_spec 0 (Z.max (Z.pos (digits2_pos (mx * my)) + E - 53) (-1074) - E))
      as [Hs|Hs]; [|nia].
    destruct (Z.max_spec (Z.pos (digits2_pos (mx * my)) + E - 53) (-1074)) as [[Hcase ->]|[Hcase ->]].
    - assert (HX : 2 ^ (-1074 - E - 1) <= 2 ^ K) by (apply Z.pow_le_mono_r; lia).
      nia.
    - set (d := Z.pos (digits2_pos (mx * my))) in *.
      replace (d + E - 53 - E - 1) with (d - 54) by lia.
      assert (HX : 2 ^ (d - 54) * 2 ^ 53 = 2 ^ (d - 1)).
      { rewrite <- Z.pow_add_r by lia. f_equal. lia. }
      nia. }
  destruct m' as [|m|m]; [nia| |nia].
  assert (Hfloor : (if 0 <=? e then Z.pos m * 2 ^ e else Z.pos m / 2 ^ (- e)) = Z.of_nat j);
    [|rewrite Hfloor; lia].
  destruct (Z.leb_spec 0 e) as [He0|He0].
  - assert (e = 0) as -> by lia. simpl in *. lia.
  - symmetry. apply (Z.div_unique_pos _ _ _ (Z.pos m - 2 ^ (- e) * Z.of_nat j)); lia.
Qed.

Lemma randomIndex_in_range (r : float) (i : nat) :
  unit_interval r -> Z.of_nat i + 1 < 2 ^ 53 -> (randomIndex r i <= i)%nat.
Proof.
  intros Hr Hi. destruct (Math_floor_product r i Hr Hi) as [_ Hfloor].
  unfold randomIndex. lia.
Qed.

Lemma draws_of_in_range (random : nat -> float) (n : nat) :
  (forall i, unit_interval (random i)) -> Z.of_nat n < 2 ^ 53 ->
  in_range (draws_of random) n.
Proof. intros Hr Hn i Hi. apply randomIndex_in_range; [apply Hr|lia]. Qed.

(** Every vector of draws in range is drawn for some numbers that
    [Math.random()] can return. *)
Lemma draws_of_onto (d : draws) (n : nat) :
  in_range d n -> Z.of_nat n <= 2 ^ 52 ->
  exists random, (forall i, unit_interval (random i))
                 /\ forall i, (i < n)%nat -> draws_of random i = d i.
Proof.
  induction n as [|n IH]; intros Hd Hn.
  - exists (fun _ => 0%float). split; [by split|]. intros i Hi. lia.
  - destruct IH as (random & Hunit & Hagree); [intros i Hi; apply Hd; lia|lia|].
    destruct (randomIndex_onto n (d n)) as (r & Hr & Hrn); [apply Hd; lia|lia|].
    exists (fun i => if decide (i = n) then r else random i). split.
    + intros i. by case_decide.
    + intros i Hi. unfold draws_of. case_decide as Hin; [by subst i|].
      apply Hagree. lia.
Qed.

Section swap.
Context {A : Type}.
Implicit Types (a b : list A) (i j k : nat) (d : draws).

Lemma swap_length a i j : length (swap a i j) = length a.
Proof.
  unfold swap. destruct (a !! j), (a !! i); try done.
  by rewrite !length_insert.
Qed.

Lemma swap_lookup a i j k :
  (i < length a)%nat -> (j < length a)%nat ->
  swap a i j !! k = a !! transpose i j k.
Proof.
  intros Hi Hj. unfold swap, transpose.
  destruct (lookup_lt_is_Some_2 a i Hi) as [ai Hai].
  destruct (lookup_lt_is_Some_2 a j Hj) as [aj Haj].
  rewrite Hai, Haj, !list_lookup_insert, length_insert.
  repeat case_decide; destruct_and?; subst; try done; try lia; congruence.
Qed.

Lemma swap_outside a i j :
  ~ ((i < length a)%nat /\ (j < length a)%nat) -> swap a i j = a.
Proof.
  intros Hout. unfold swap.
  destruct (a !! j) eqn:Hj; [|done]. destruct (a !! i) eqn:Hi; [|done].
  apply lookup_lt_Some in Hi, Hj. lia.
Qed.

Lemma transpose_inj i j : Inj (=) (=) (transpose i j).
Proof. intros k k'. unfold transpose. repeat case_decide; congruence. Qed.

Lemma swap_perm a i j : swap a i j ≡ₚ a.
Proof.
  destruct (decide ((i < length a)%nat /\ (j < length a)%nat)) as [[Hi Hj]|Hout].
  - apply Permutation_inj. split; [apply swap_length|].
    exists (transpose i j). split; [apply transpose_inj|].
    intros k. by apply swap_lookup.
  - by rewrite swap_outside.
Qed.

Lemma swap_same a i : swap a i i = a.
Proof.
  unfold swap. destruct (a !! i) eqn:Hi; [|done].
  by rewrite list_insert_insert_eq, list_insert_id.
Qed.

Lemma swap_app a b i j :
  (i < length a)%nat -> (j < length a)%nat -> swap (a ++ b) i j = swap a i j ++ b.
Proof.
  intros Hi Hj. unfold swap. rewrite !lookup_app_l by done.
  destruct (a !! j), (a !! i); try done.
  by rewrite !insert_app_l by (by rewrite ?length_insert).
Qed.

Lemma shuffle_loop_length d i a : length (shuffle_loop d i a) = length a.
Proof.
  revert a. induction i as [|i IH]; intros a; simpl; [done|].
  by rewrite IH, swap_length.
Qed.

Lemma shuffle_loop_perm d i a : shuffle_loop d i a ≡ₚ a.
Proof.
  revert a. induction i as [|i IH]; intros a; simpl; [done|].
  by rewrite IH, swap_perm.
Qed.

Lemma shuffle_loop_app d i a b :
  (forall k, (k <= i)%nat -> (d k <= k)%nat) -> (i < length a)%nat ->
  shuffle_loop d i (a ++ b) = shuffle_loop d i a ++ b.
Proof.
  revert a. induction i as [|i IH]; intros a Hd Hi; simpl; [done|].
  rewrite swap_app; [|done|specialize (Hd (S i)); lia].
  apply IH; [intros k Hk; apply Hd; lia | rewrite swap_length; lia].
Qed.

Lemma shuffle_loop_ext d d' i a :
  (forall k, (1 <= k <= i)%nat -> d k = d' k) ->
  shuffle_loop d i a = shuffle_loop d' i a.
Proof.
  revert a. induction i as [|i IH]; intros a Hd; simpl; [done|].
  rewrite (Hd (S i)) by lia. apply IH. intros k Hk. apply Hd. lia.
Qed.

Lemma shuffleArray_ext d d' a :
  agree_on (length a) d d' -> shuffleArray d a = shuffleArray d' a.
Proof.
  intros Hd. unfold shuffleArray. apply shuffle_loop_ext.
  intros k Hk. apply Hd. lia.
Qed.

Lemma shuffleArray_length d a : length (shuffleArray d a) = length a.
Proof. apply shuffle_loop_length. Qed.

(** The loop agrees with the fold over the indices [n-1, ..., 1]. *)
Lemma shuffle_loop_foldl d i a :
  shuffle_loop d i a = foldl (fun acc k => swap acc k (d k)) a (rev (seq 1 i)).
Proof.
  revert a. induction i as [|i IH]; intros a; [done|].
  rewrite seq_S, rev_app_distr. simpl. apply IH.
Qed.

(** One iteration: the last position receives the element drawn for it and
    is not touched again; the rest of the loop shuffles the other
    positions. *)
Lemma shuffleArray_unfold d a m :
  length a = S m -> in_range d (S m) ->
  shuffleArray d a =
    shuffleArray d (take m (swap a m (d m))) ++ drop m (swap a m (d m)).
Proof.
  intros Hlen Hd. unfold shuffleArray. rewrite Hlen.
  replace (S m - 1)%nat with m by lia.
  rewrite length_take_le by (rewrite swap_length; lia).
  destruct m as [|m]; simpl.
  - assert (d O = O) as -> by (specialize (Hd O); lia).
    by rewrite swap_same, drop_0.
  - rewrite Nat.sub_0_r.
    set (L := swap a (S m) (d (S m))).
    rewrite <- shuffle_loop_app.
    + by rewrite take_drop.
    + intros k Hk. apply Hd. lia.
    + rewrite length_take_le; [lia|]. unfold L. rewrite swap_length. lia.
Qed.
End swap.

Section unbiased.
Context {A : Type}.
Implicit Types (a l p : list A) (d : draws).

(** What the first iteration puts in the last position is the drawn
    element. *)
Lemma drop_swap_last l m j :
  length l = S m -> (j <= m)%nat ->
  exists y, l !! j = Some y /\ drop m (swap l m j) = [y].
Proof.
  intros Hlen Hj.
  destruct (lookup_lt_is_Some_2 l j) as [y Hy]; [lia|].
  exists y. split; [done|].
  assert (Hm : swap l m j !! m = Some y).
  { rewrite swap_lookup by lia. unfold transpose. by rewrite decide_True. }
  rewrite <- (take_drop_middle _ _ _ Hm) at 1.
  rewrite drop_app_length'; [|rewrite length_take_le; [done|rewrite swap_length; lia]].
  f_equal. apply drop_ge. rewrite swap_length. lia.
Qed.

Lemma in_range_le d n m : (m <= n)%nat -> in_range d n -> in_range d m.
Proof. intros Hm Hd i Hi. apply Hd. lia. Qed.

(** Every arrangement of the input is reached by some draws... *)
Lemma shuffleArray_onto n : forall l p,
  length l = n -> p ≡ₚ l -> exists d, in_range d n /\ shuffleArray d l = p.
Proof.
  induction n as [|m IH]; intros l p Hlen Hp.
  - apply nil_length_inv in Hlen as ->. apply Permutation_nil_r in Hp as ->.
    exists (fun i => i). split; [intros i Hi; lia|done].
  - assert (Hplen : length p = S m) by (by rewrite Hp).
    destruct (lookup_lt_is_Some_2 p m) as [y Hy]; [lia|].
    assert (Hpy : p = take m p ++ [y]).
    { rewrite <- (take_drop_middle _ _ _ Hy) at 1. f_equal. f_equal.
      apply drop_ge. lia. }
    assert (Hin : y ∈ l).
    { rewrite <- Hp. by apply list_elem_of_lookup_2 in Hy. }
    apply list_elem_of_lookup_1 in Hin as [j Hj].
    pose proof (lookup_lt_Some _ _ _ Hj) as Hjlt.
    destruct (drop_swap_last l m j Hlen) as (y' & Hy' & Hdrop); [lia|].
    assert (y' = y) as -> by congruence.
    destruct (IH (take m (swap l m j)) (take m p)) as (d' & Hd' & Hsh).
    { rewrite length_take_le; [done|rewrite swap_length; lia]. }
    { apply (Permutation_app_inv_r [y]).
      rewrite <- Hpy, <- Hdrop, take_drop, swap_perm. done. }
    exists (fun i => if decide (i = m) then j else d' i). split.
    + intros i Hi. case_decide; [lia|]. apply Hd'. lia.
    + rewrite (shuffleArray_unfold _ _ m Hlen).
      * rewrite decide_True by done. rewrite Hdrop, Hpy at 1. f_equal.
        rewrite <- Hsh. apply shuffleArray_ext.
        intros i Hi. rewrite length_take_le in Hi by (rewrite swap_length; lia).
        by rewrite decide_False by lia.
      * intros i Hi. case_decide; [lia|]. apply Hd'. lia.
Qed.

(** ... and, when the elements are pairwise different, by no other draws. *)
Lemma shuffleArray_inj n : forall l d d',
  length l = n -> NoDup l -> in_range d n -> in_range d' n ->
  shuffleArray d l = shuffleArray d' l -> agree_on n d d'.
Proof.
  induction n as [|m IH]; intros l d d' Hlen Hnd Hd Hd' Heq.
  - intros i Hi. lia.
  - rewrite (shuffleArray_unfold d l m), (shuffleArray_unfold d' l m) in Heq by done.
    destruct (drop_swap_last l m (d m) Hlen) as (y & Hy & Hdrop); [apply Hd; lia|].
    destruct (drop_swap_last l m (d' m) Hlen) as (y' & Hy' & Hdrop'); [apply Hd'; lia|].
    rewrite Hdrop, Hdrop' in Heq. apply app_inj_2 in Heq as [Htake Hlast]; [|done].
    assert (y' = y) as -> by congruence.
    assert (Hm : d m = d' m) by (by apply (NoDup_lookup l _ _ y)).
    rewrite <- Hm in Htake.
    assert (Hrest : agree_on m d d').
    { apply (IH (take m (swap l m (d m)))).
      - rewrite length_take_le; [done|rewrite swap_length; lia].
      - apply (sublist_NoDup _ (swap l m (d m))); [by rewrite swap_perm|apply sublist_take].
      - apply (in_range_le d (S m)); [lia|done].
      - apply (in_range_le d' (S m)); [lia|done].
      - done. }
    intros i Hi. destruct (decide (i = m)) as [->|Hne]; [done|]. apply Hrest. lia.
Qed.
End unbiased.

(** The shuffle acts on positions: it commutes with any relabelling of the
    elements. *)
Lemma swap_fmap {A B} (f : A -> B) (a : list A) (i j : nat) :
  swap (f <$> a) i j = f <$> swap a i j.
Proof.
  unfold swap. rewrite !list_lookup_fmap.
  destruct (a !! j), (a !! i); simpl; try done.
  by rewrite !list_fmap_insert.
Qed.

Lemma shuffleArray_fmap {A B} (f : A -> B) (d : draws) (a : list A) :
  shuffleArray d (f <$> a) = f <$> shuffleArray d a.
Proof.
  unfold shuffleArray. rewrite length_fmap. generalize (length a - 1)%nat as i.
  intros i. revert a. induction i as [|i IH]; intros a; simpl; [done|].
  by rewrite swap_fmap, IH.
Qed.

Lemma shuffleArray_positions {A} (d : draws) (a : list A) :
  Some <$> shuffleArray d a = (fun k => a !! k) <$> shuffleArray d (seq 0 (length a)).
Proof.
  rewrite <- !shuffleArray_fmap. f_equal.
  apply list_eq. intros i. rewrite !list_lookup_fmap.
  destruct (decide (i < length a)%nat) as [Hi|Hi].
  - rewrite lookup_seq_lt by done. simpl.
    by destruct (lookup_lt_is_Some_2 a i Hi) as [x ->].
  - rewrite lookup_seq_ge by lia. by rewrite lookup_ge_None_2 by lia.
Qed.

(** ** The outcomes of the draws *)

Lemma length_bind_const {A B} (f : A -> list B) (c : nat) (l : list A) :
  (forall x, length (f x) = c) -> length (l ≫= f) = (length l * c)%nat.
Proof.
  intros Hf. induction l as [|x l IH]; [done|].
  rewrite bind_cons, length_app, IH, Hf. simpl. lia.
Qed.

Lemma draw_vectors_length (n : nat) : length (draw_vectors n) = fact n.
Proof.
  induction n as [|m IH]; [done|].
  cbn [draw_vectors]. rewrite (length_bind_const _ (S m)).
  - rewrite IH. simpl. lia.
  - intros v. by rewrite length_fmap, length_seq.
Qed.

Lemma draw_vectors_elem (n : nat) (v : list nat) :
  v ∈ draw_vectors n <->
  length v = n /\ forall i j, v !! i = Some j -> (j <= i)%nat.
Proof.
  revert v. induction n as [|m IH]; intros v.
  - simpl. rewrite list_elem_of_singleton. split.
    + intros ->. split; [done|]. intros i j Hij. by rewrite lookup_nil in Hij.
    + intros [Hlen _]. by apply nil_length_inv.
  - cbn [draw_vectors]. rewrite list_elem_of_bind. split.
    + intros (v0 & Hv & Hv0). apply list_elem_of_fmap in Hv as (j & -> & Hj).
      apply elem_of_seq in Hj. apply IH in Hv0 as [Hlen Hle].
      split; [rewrite length_app; simpl; lia|].
      intros i k [[_ Hik]|[-> <-]]%lookup_snoc_Some; [by apply (Hle i) | lia].
    + intros [Hlen Hle].
      destruct (lookup_lt_is_Some_2 v m) as [j Hj]; [lia|].
      assert (Hv : v = take m v ++ [j]).
      { rewrite <- (take_drop_middle _ _ _ Hj) at 1. do 2 f_equal.
        apply drop_ge. lia. }
      exists (take m v). split.
      * apply list_elem_of_fmap. exists j. split; [done|].
        apply elem_of_seq. specialize (Hle m j Hj). lia.
      * apply IH. split; [rewrite length_take_le; lia|].
        intros i k [Hik Hi]%lookup_take_Some. by apply Hle.
Qed.

Lemma draw_vectors_NoDup (n : nat) : NoDup (draw_vectors n).
Proof.
  induction n as [|m IH]; [apply NoDup_singleton|].
  cbn [draw_vectors]. apply NoDup_bind; [| |done].
  - intros v1 v2 w _ _ (j1 & -> & _)%list_elem_of_fmap (j2 & Heq & _)%list_elem_of_fmap.
    by apply app_inj_2 in Heq as [-> _].
  - intros v _. apply NoDup_fmap_2; [|apply NoDup_seq].
    intros j1 j2 Heq. by apply app_inj_1 in Heq as [_ [= ->]].
Qed.

Lemma draw_vectors_in_range (n : nat) (v : list nat) :
  v ∈ draw_vectors n -> in_range (of_vector v) n.
Proof.
  intros [Hlen Hle]%draw_vectors_elem i Hi. unfold of_vector.
  destruct (v !! i) as [j|] eqn:Hj; simpl; [by apply Hle | lia].
Qed.

Lemma vector_of_elem (d : draws) (n : nat) :
  in_range d n -> vector_of d n ∈ draw_vectors n.
Proof.
  intros Hd. apply draw_vectors_elem. unfold vector_of.
  split; [by rewrite length_fmap, length_seq|].
  intros i j (k & -> & [-> Hi]%lookup_seq)%list_lookup_fmap_Some. simpl. by apply Hd.
Qed.

Lemma of_vector_of (d : draws) (n i : nat) :
  (i < n)%nat -> of_vector (vector_of d n) i = d i.
Proof.
  intros Hi. unfold of_vector, vector_of.
  by rewrite list_lookup_fmap, lookup_seq_lt.
Qed.

Lemma draw_vectors_agree (n : nat) (v v' : list nat) :
  v ∈ draw_vectors n -> v' ∈ draw_vectors n ->
  agree_on n (of_vector v) (of_vector v') -> v = v'.
Proof.
  intros [Hlen Hle]%draw_vectors_elem [Hlen' Hle']%draw_vectors_elem Hag.
  apply list_eq. intros i.
  destruct (decide (i < n)%nat) as [Hi|Hi];
    [|by rewrite !lookup_ge_None_2 by lia].
  destruct (lookup_lt_is_Some_2 v i) as [j Hj]; [lia|].
  destruct (lookup_lt_is_Some_2 v' i) as [j' Hj']; [lia|].
  rewrite Hj, Hj'. f_equal.
  destruct (decide (i = O)) as [->|Hne].
  - specialize (Hle _ _ Hj). specialize (Hle' _ _ Hj'). lia.
  - specialize (Hag i). unfold of_vector in Hag. rewrite Hj, Hj' in Hag.
    apply Hag. lia.
Qed.

(** Every arrangement of an input without repeated elements is the result
    of exactly one outcome of the draws. *)
Lemma shuffleArray_one_outcome {A} (l p : list A) :
  NoDup l -> p ≡ₚ l ->
  exists v, v ∈ draw_vectors (length l)
    /\ shuffleArray (of_vector v) l = p
    /\ forall v', v' ∈ draw_vectors (length l) ->
         shuffleArray (of_vector v') l = p -> v' = v.
Proof.
  intros Hnd Hp.
  destruct (shuffleArray_onto (length l) l p eq_refl Hp) as (d & Hd & Hsh).
  exists (vector_of d (length l)).
  assert (Hv : shuffleArray (of_vector (vector_of d (length l))) l = p).
  { rewrite <- Hsh. apply shuffleArray_ext. intros i Hi. apply of_vector_of. lia. }
  split; [by apply vector_of_elem|]. split; [done|].
  intros v' Hv' Hsh'.
  apply (draw_vectors_agree (length l)); [done|by apply vector_of_elem|].
  apply (shuffleArray_inj (length l) l); try done.
  - by apply draw_vectors_in_range.
  - by apply draw_vectors_in_range, vector_of_elem.
  - by rewrite Hv.
Qed.

(** *** Counting the runs *)

Lemma runs_length (values : list float) (calls : nat) :
  length (runs values calls) = (length values ^ calls)%nat.
Proof.
  induction calls as [|calls IH]; [done|]. cbn [runs].
  rewrite (length_bind_const _ (length values ^ calls)%nat).
  - simpl. lia.
  - intros r. by rewrite length_fmap.
Qed.

Lemma filter_split_length {A} (f : A -> bool) (l : list A) :
  (length (List.filter f l) + length (List.filter (fun x => negb (f x)) l)
   = length l)%nat.
Proof. induction l as [|x l IH]; simpl; [done|]. destruct (f x); simpl; lia. Qed.

Lemma filter_other {A} `{EqDecision A} (p p' : A) (os : list A) :
  p' <> p ->
  List.filter (fun q => bool_decide (q = p'))
    (List.filter (fun q => negb (bool_decide (q = p))) os)
  = List.filter (fun q => bool_decide (q = p')) os.
Proof.
  intros Hne. induction os as [|o os IH]; [done|]. simpl.
  destruct (decide (o = p)) as [->|Hop].
  - rewrite bool_decide_eq_true_2 by done. simpl.
    by rewrite (bool_decide_eq_false_2 (p = p')) by congruence.
  - rewrite (bool_decide_eq_false_2 (o = p)) by done. simpl. by rewrite IH.
Qed.

(** When each of the possible results [ps] comes out of the same number
    [c] of the runs, the number of runs is a multiple of [c]. *)
Lemma outcomes_count {A} `{EqDecision A} (ps os : list A) (c : nat) :
  NoDup ps -> (forall o, o ∈ os -> o ∈ ps) ->
  (forall p, p ∈ ps -> length (List.filter (fun q => bool_decide (q = p)) os) = c) ->
  length os = (length ps * c)%nat.
Proof.
  intros Hnd. revert os. induction Hnd as [|p ps Hp Hnd IH]; intros os Hin Hc.
  - destruct os as [|o os]; [done|].
    specialize (Hin o (list_elem_of_here _ _)). by apply elem_of_nil in Hin.
  - pose proof (filter_split_length (fun q => bool_decide (q = p)) os) as Hsplit.
    rewrite (Hc p (list_elem_of_here _ _)) in Hsplit.
    rewrite (IH (List.filter (fun q => negb (bool_decide (q = p))) os)) in Hsplit.
    + simpl. lia.
    + intros o [Ho Hne]%list_elem_of_In%filter_In.
      apply negb_true_iff, bool_decide_eq_false in Hne.
      apply list_elem_of_In, Hin, elem_of_cons in Ho as [->|Ho]; done.
    + intros p' Hp'. rewrite filter_other by (intros ->; done).
      apply Hc. by apply list_elem_of_further.
Qed.

Lemma pow2_not_multiple_of_3 (k c : nat) : (2 ^ k <> 3 * c)%nat.
Proof.
  revert c. induction k as [|k IH]; intros c Heq; simpl in Heq; [lia|].
  destruct (Nat.Even_or_Odd c) as [[q ->]|[q ->]]; [apply (IH q)|]; lia.
Qed.




(** ** The working set *)

Lemma filter_sublist {A} (f : A -> bool) (l : list A) : List.filter f l `sublist_of` l.
Proof.
  induction l as [|x l IH]; simpl; [constructor|].
  destruct (f x); by constructor.
Qed.

Lemma sample_length (questions : list Question) (d : draws) :
  length (sample questions d) = Nat.min (length questions) 20.
Proof.
  unfold sample. rewrite length_take, shuffleArray_length. lia.
Qed.

Lemma handle_allQuestions (questions : list Question) (e : Event) (s : State) :
  (forall d, e <> ClickRestart d) ->
  allQuestions (handle questions e s) = allQuestions s.
Proof.
  intros Hne. destruct e; simpl; try done.
  - unfold handleStart. destruct (_ =? _)%nat; [done|]. by destruct (truthy_num _).
  - unfold handleOptionClick. by destruct (isSubmitted s).
  - unfold handleSubmit. destruct (negb _); [done|].
    by destruct (selectedOptionId s), (currentQuestion s).
  - unfold handleNext. by destruct (_ <? _).
  - by destruct (Hne d).
Qed.

Lemma timerEffect_allQuestions (s : State) :
  allQuestions (timerEffect s) = allQuestions s.
Proof. by destruct (timerEffect_cases s) as [->|(-> & _)]. Qed.

(** C6.  The working set is the first 20 elements of a shuffled copy of the
    bank, drawn at the first render and again at every restart; it has
    [min (bank size) 20] elements, all of them from the bank; no other event
    changes it; and the filtered set is the working set with the questions
    that do not match removed, the others in their order, whatever the
    filters are changed to. *)
Theorem working_set_fixed (questions : list Question) :
  (forall d, in_range d (length questions) ->
     allQuestions (initial questions d) = take 20 (shuffleArray d questions)
     /\ forall s, allQuestions (handleRestart questions d s)
                  = take 20 (shuffleArray d questions))
  /\ (forall s, reachable questions s ->
        length (allQuestions s) = Nat.min (length questions) 20
        /\ (exists d, in_range d (length questions)
                      /\ allQuestions s = take 20 (shuffleArray d questions))
        /\ allQuestions s ⊆ questions)
  /\ (forall s e, (forall d, e <> ClickRestart d) ->
        allQuestions (step questions s e) = allQuestions s)
  /\ (forall s, filteredQuestions s `sublist_of` allQuestions s)
  /\ (forall s fd fc,
        let keep fd' fc' q :=
          matches fd' (difficulty q) && matches fc' (category q) in
        allQuestions (onChangeDifficulty fd s) = allQuestions s
        /\ allQuestions (onChangeCategory fc s) = allQuestions s
        /\ filteredQuestions (onChangeDifficulty fd s)
           = List.filter (keep fd (filterCategory s)) (allQuestions s)
        /\ filteredQuestions (onChangeCategory fc s)
           = List.filter (keep (filterDifficulty s) fc) (allQuestions s)).
Proof.
  split; [|split; [|split; [|split]]].
  - intros d _. by split.
  - intros s Hr. destruct (reachable_Inv _ _ Hr) as [_ _ _ _ _ _ _ (d & Hd & ->)].
    split; [apply sample_length|]. split; [by exists d|].
    unfold sample, shuffleArray. intros q Hq%(subseteq_take 20).
    by rewrite shuffle_loop_perm in Hq.
  - intros s e Hne. unfold step. destruct (offered questions s e); [|done].
    by rewrite timerEffect_allQuestions, handle_allQuestions.
  - intros s. apply filter_sublist.
  - intros s fd fc keep. by repeat split.
Qed.

(** A bank of 25 questions is sampled down to 20; a bank of 3 is kept
    whole, and filtering it by difficulty keeps the sample. *)
Lemma working_set_fixed_witness :
  let s25 := initial (demoBank 25) pickFirst in
  let s := run mixedBank (initial mixedBank pickFirst) [ClickStart 0] in
  let s' := step mixedBank s (SelectDifficulty (Only Advanced)) in
  length (allQuestions s25) = 20%nat
  /\ length (allQuestions s) = 3%nat
  /\ allQuestions s' = allQuestions s
  /\ map q_id (allQuestions s) = [2; 3; 1]
  /\ map q_id (filteredQuestions s') = [3].
Proof.
  intros s25 s s'.
  destruct (working_set_fixed (demoBank 25)) as (_ & Hlen25 & _).
  destruct (working_set_fixed mixedBank) as (_ & Hlen & Hfix & _).
  destruct (Hlen25 s25) as [H25 _].
  { constructor. apply in_range_pickFirst. }
  destruct (Hlen s) as [H3 _].
  { apply reachable_run. constructor. apply in_range_pickFirst. }
  split; [rewrite H25; vm_compute; reflexivity|].
  split; [rewrite H3; vm_compute; reflexivity|].
  split; [by apply Hfix|].
  split; vm_compute; reflexivity.
Defined.


(** * Further properties of the controller *)

(** ** Further invariants *)

Lemma filteredQuestions_nil_sample (s : State) :
  allQuestions s = [] -> filteredQuestions s = [].
Proof. unfold filteredQuestions. by intros ->. Qed.

Lemma SessionInv_initial (questions : list Question) (d : draws) :
  SessionInv (initial questions d).
Proof. split; simpl; try done. Qed.

Lemma SessionInv_timerEffect (s : State) : SessionInv s -> SessionInv (timerEffect s).
Proof.
  intros HS. destruct (timerEffect_cases s) as [->|(-> & _ & _)]; [done|].
  destruct HS as [S1 S2 S3 S4 S5]. by split.
Qed.

Lemma SessionInv_handle (questions : list Question) (s : State) (e : Event) :
  Inv questions s -> SessionInv s -> offered questions s e = true ->
  SessionInv (handle questions e s).
Proof.
  intros HI HS Hoff.
  pose proof HI as [H1 H2 H3 H4 H5 H6 H7 H8]. pose proof HS as [S1 S2 S3 S4 S5].
  destruct e; decode_offered Hoff; view_facts; cbn [handle].
  - (* difficulty button of the home view *)
    destruct (H5 Hoff) as (Hi & Ha & Hsub & Hfin & Htr).
    split; simpl; try done; congruence.
  - (* timer button *)
    match goal with H : isStarted s = false |- _ =>
      destruct (H5 H) as (Hi & Ha & Hsub & Hfin & Htr) end.
    split; simpl; try done; congruence.
  - (* start *)
    match goal with H : isStarted s = false |- _ =>
      destruct (H5 H) as (Hi & Ha & Hsub & Hfin & Htr) end.
    unfold handleStart.
    destruct (Nat.eqb_spec (length (filteredQuestions s)) 0) as [|Hlen]; [exact HS|].
    assert (Hq : allQuestions s <> []).
    { intros Hnil. by rewrite (filteredQuestions_nil_sample s Hnil) in Hlen. }
    destruct (truthy_num (timerDuration s)) eqn:Htd.
    + destruct (truthy_num_choice _ H6 Htd) as (n & Hn & Hpos).
      split; simpl; try done; try congruence.
      intros t. rewrite Hn. intros [= <-]. split; [done|]. exists n. split; [done|lia].
    + split; simpl; try done; congruence.
  - (* option button *)
    unfold handleOptionClick. destruct (isSubmitted s) eqn:Hsub; [exact HS|].
    split; simpl; try done; congruence.
  - (* submit *)
    unfold handleSubmit.
    destruct (truthy_id (selectedOptionId s)) eqn:Htr; simpl; [|exact HS].
    destruct (selectedOptionId s) as [selected|] eqn:Hsel; [|exact HS].
    destruct (currentQuestion s) as [q|] eqn:Hq; [|exact HS].
    split; simpl; try done.
    + intros _. by rewrite Hsel.
    + intros _ _. exists q, selected. split; [exact Hq|]. split; [done|].
      apply last_snoc.
  - (* next *)
    unfold handleNext.
    destruct (_ <? _); split; simpl; try done.
  - (* difficulty select of the question view *)
    split; simpl; try done.
  - (* category select of the question view *)
    split; simpl; try done.
  - (* reset button of the empty view *)
    assert (Ha : answers s = []) by (apply length_zero_iff_nil; lia).
    split; simpl; try done.
  - (* restart *)
    split; simpl; try done.
  - (* tick *)
    unfold timerRunning in Hoff. decode_offered Hoff.
    destruct (timeRemaining s) as [t|] eqn:Ht; [|done].
    destruct (S3 t eq_refl) as (Hst & d & Hd & Hle).
    split; simpl; try done.
    rewrite Ht. intros t' [= <-]. split; [done|]. exists d. split; [done|lia].
Qed.

Lemma reachable_SessionInv (questions : list Question) (s : State) :
  reachable questions s -> SessionInv s.
Proof.
  induction 1 as [d Hd|s e Hr IH]; [apply SessionInv_initial|].
  unfold step. destruct (offered questions s e) eqn:Hoff; [|done].
  apply SessionInv_timerEffect, (SessionInv_handle questions); [|done|done].
  by apply reachable_Inv.
Qed.

Lemma step_handle (questions : list Question) (s : State) (e : Event) :
  offered questions s e = true ->
  timerEffect (handle questions e s) = handle questions e s ->
  step questions s e = handle questions e s.
Proof. intros Hoff Heff. unfold step. by rewrite Hoff. Qed.

Lemma timerEffect_finished (s : State) : isFinished s = true -> timerEffect s = s.
Proof.
  intros Hf. destruct (timerEffect_cases s) as [Heq|(_ & _ & Hnf)]; [done|congruence].
Qed.

(** ** The results view *)

Lemma results_no_event (questions : list Question) (s : State) (e : Event) :
  view s = ResultsView -> (forall d, e <> ClickRestart d) ->
  offered questions s e = false.
Proof.
  intros Hv Hne. pose proof (view_results s Hv) as [Hs Hf].
  destruct e; simpl; rewrite ?Hv; try done.
  - by destruct (Hne d).
  - unfold timerRunning. rewrite Hs, Hf. done.
Qed.

Lemma results_stay (questions : list Question) (s : State) (es : list Event) :
  view s = ResultsView ->
  (forall e d, e ∈ es -> e <> ClickRestart d) ->
  run questions s es = s.
Proof.
  intros Hv. induction es as [|e es IH]; intros Hne; [done|].
  rewrite run_cons. unfold step.
  rewrite results_no_event; [|done|intros d; apply Hne; left].
  apply IH. intros e' d He'. apply Hne. by right.
Qed.

(** X1.  Once the results are shown, nothing but the restart button changes
    the session: no other control is rendered and the interval of the timer
    is cleared, so the answers, the score and the remaining time stay as they
    are through any sequence of other events. *)
Theorem results_frozen (questions : list Question) (s : State) (es : list Event) :
  view s = ResultsView ->
  (forall e d, e ∈ es -> e <> ClickRestart d) ->
  run questions s es = s.
Proof.
  intros Hv. induction es as [|e es IH]; intros Hne; [done|].
  assert (Hoff : offered questions s e = false).
  { apply results_no_event; [done|]. intros d. apply Hne. left. }
  rewrite run_cons. unfold step. rewrite Hoff.
  apply IH. intros e' d He'. apply Hne. by right.
Qed.

(** After a session of two questions has ended, clicks and ticks are lost. *)
Lemma results_frozen_witness :
  let qs := demoBank 2 in
  let s := run qs (initial qs keepOrder)
             ([ClickTimer (Some 120); ClickStart 0] ++ repeatEvents 2 (answerWith "a")) in
  view s = ResultsView
  /\ run qs s [Tick; ClickSubmit; ClickNext; SelectDifficulty (Only Advanced);
               ClickOption "b"; ClickStart 9; Tick] = s.
Proof.
  intros qs s. split; [vm_compute; reflexivity|].
  apply results_frozen; [vm_compute; reflexivity|].
  intros e d He. rewrite !elem_of_cons, elem_of_nil in He.
  destruct He as [->|[->|[->|[->|[->|[->|[->|[]]]]]]]]; discriminate.
Defined.

(** ** The next button *)

(** X2.  The label of the next button tells what the button does: in every
    reachable state that shows it, the label is the one for the results
    exactly when the click ends the session, and otherwise the click moves
    to the next question, which exists, clears the selection and the
    submitted flag and keeps the answers. *)
Theorem next_button_label (questions : list Question) (s : State) :
  reachable questions s -> offered questions s ClickNext = true ->
  let s' := step questions s ClickNext in
  (nextButtonLabel s = "查看结果" \/ nextButtonLabel s = "下一题")
  /\ (nextButtonLabel s = "查看结果" ->
      s' = s |> setIsFinished true /\ view s' = ResultsView)
  /\ (nextButtonLabel s = "下一题" ->
      s' = s |> setCurrentIndex (currentIndex s + 1) |> setSelectedOptionId None
             |> setIsSubmitted false
      /\ view s' = QuestionView /\ is_Some (currentQuestion s')).
Proof.
  intros Hr Hoff s'. pose proof Hoff as Hoff'.
  simpl in Hoff. apply andb_prop in Hoff as [Hv%bool_decide_eq_true Hsub].
  pose proof (view_question s Hv) as (Hst & Hnf & Hpos).
  pose proof (reachable_Inv _ _ Hr) as [Hnn Hidx _ _ _ _ _ _].
  pose proof (reachable_settled _ _ Hr) as Hset.
  unfold nextButtonLabel. subst s'.
  destruct (Z.eqb_spec (currentIndex s) (Z.of_nat (total s) - 1)) as [Hlast|Hmore].
  - assert (Hnext : handleNext s = s |> setIsFinished true).
    { unfold handleNext. fold (total s).
      by destruct (Z.ltb_spec (currentIndex s) (Z.of_nat (total s) - 1)); [lia|]. }
    rewrite (step_handle _ _ _ Hoff') by
      (cbn [handle]; rewrite Hnext; by apply timerEffect_finished).
    cbn [handle]. rewrite Hnext.
    split; [by left|]. split.
    + intros _. split; [done|]. unfold view. simpl. by rewrite Hst.
    + intros Hl. vm_compute in Hl. discriminate Hl.
  - assert (Hlt : currentIndex s < Z.of_nat (total s) - 1) by lia.
    assert (Hnext : handleNext s = s |> setCurrentIndex (currentIndex s + 1)
                      |> setSelectedOptionId None |> setIsSubmitted false).
    { unfold handleNext. fold (total s).
      by destruct (Z.ltb_spec (currentIndex s) (Z.of_nat (total s) - 1)); [|lia]. }
    rewrite (step_handle _ _ _ Hoff') by
      (cbn [handle]; rewrite Hnext; by apply (timerEffect_after s)).
    cbn [handle]. rewrite Hnext.
    split; [by right|]. split.
    + intros Hl. vm_compute in Hl. discriminate Hl.
    + intros _. split; [done|]. split.
      * revert Hv. unfold view. simpl. by rewrite Hst, Hnf.
      * apply at_index_is_Some. simpl.
        change (filteredQuestions _) with (filteredQuestions s). fold (total s). lia.
Qed.

(** On three questions the label changes on the last one. *)
Lemma next_button_label_witness :
  let qs := demoBank 3 in
  let s1 := run qs (initial qs keepOrder) [ClickStart 0; ClickOption "a"; ClickSubmit] in
  let s3 := run qs s1 ([ClickNext] ++ answerWith "a" ++ [ClickOption "b"; ClickSubmit]) in
  nextButtonLabel s1 = "下一题" /\ currentIndex (step qs s1 ClickNext) = 1
  /\ nextButtonLabel s3 = "查看结果" /\ view (step qs s3 ClickNext) = ResultsView.
Proof.
  intros qs s1 s3.
  assert (Hr1 : reachable qs s1).
  { apply reachable_run. constructor. apply in_range_keepOrder. }
  assert (Hr3 : reachable qs s3) by (by apply reachable_run).
  destruct (next_button_label qs s1 Hr1) as (_ & _ & Hmore); [vm_compute; reflexivity|].
  destruct (next_button_label qs s3 Hr3) as (_ & Hlast & _); [vm_compute; reflexivity|].
  destruct Hmore as (Heq & _); [vm_compute; reflexivity|].
  destruct Hlast as (_ & Hv); [vm_compute; reflexivity|].
  split; [vm_compute; reflexivity|]. split; [rewrite Heq; vm_compute; reflexivity|].
  split; [vm_compute; reflexivity|]. exact Hv.
Defined.

(** ** The empty view *)

Lemma filter_true {A} (l : list A) : List.filter (fun _ => true) l = l.
Proof. induction l as [|x l IH]; simpl; by rewrite ?IH. Qed.

(** X3.  The reset button of the empty view always brings the session back:
    in every reachable state that shows the empty view, it sets both filters
    to the wildcard, after which the filtered set is the whole working set,
    which is not empty, and the question view shows its first question with
    no answer recorded. *)
Theorem reset_filters_recovers (questions : list Question) (s : State) :
  reachable questions s -> view s = EmptyView ->
  let s' := step questions s ClickResetFilters in
  s' = resetFilters s
  /\ filterDifficulty s' = All /\ filterCategory s' = All
  /\ filteredQuestions s' = allQuestions s /\ allQuestions s <> []
  /\ view s' = QuestionView
  /\ currentIndex s' = 0 /\ answers s' = []
  /\ currentQuestion s' = head (allQuestions s) /\ is_Some (currentQuestion s').
Proof.
  intros Hr Hv s'.
  pose proof (view_empty s Hv) as (Hst & Hnf & Htot).
  pose proof (reachable_Inv _ _ Hr) as [Hnn Hidx Hans _ _ _ _ _].
  pose proof (reachable_SessionInv _ _ Hr) as [Hsample _ _ _ _].
  assert (Hi : currentIndex s = 0) by lia.
  assert (Ha : answers s = []) by (apply length_zero_iff_nil; lia).
  assert (Hs' : s' = resetFilters s).
  { subst s'. apply step_handle; [simpl; by rewrite bool_decide_eq_true_2|].
    cbn [handle]. by apply (timerEffect_after s); [apply (reachable_settled questions)|..]. }
  assert (Hfq : filteredQuestions (resetFilters s) = allQuestions s).
  { unfold filteredQuestions. simpl. apply filter_true. }
  specialize (Hsample Hst).
  rewrite Hs'. repeat split; try done.
  - unfold view. rewrite Hfq. simpl. rewrite Hst, Hnf. simpl.
    destruct (allQuestions s); [done|done].
  - unfold currentQuestion. rewrite Hfq. simpl. rewrite Hi.
    by destruct (allQuestions s).
  - unfold currentQuestion. rewrite Hfq. simpl. rewrite Hi.
    destruct (allQuestions s); [done|by eexists].
Qed.

(** A filter combination with no question, then the reset. *)
Lemma reset_filters_recovers_witness :
  let qs := mixedBank in
  let s := run qs (initial qs keepOrder)
             [ClickStart 0; SelectCategory (Only Conjunction)] in
  let s' := step qs s ClickResetFilters in
  view s = EmptyView /\ view s' = QuestionView
  /\ map q_id (filteredQuestions s') = [1; 2; 3].
Proof.
  intros qs s s'.
  assert (Hr : reachable qs s).
  { apply reachable_run. constructor. apply in_range_keepOrder. }
  destruct (reset_filters_recovers qs s Hr) as (_ & _ & _ & Hfq & _ & Hv & _);
    [vm_compute; reflexivity|].
  split; [vm_compute; reflexivity|]. split; [exact Hv|].
  fold s' in Hfq. rewrite Hfq. vm_compute; reflexivity.
Defined.

(** ** Feedback on a submitted question *)

Lemma isLastCorrect_last (s : State) :
  isLastCorrect s = match last (answers s) with Some a => isCorrect a | None => false end.
Proof.
  unfold isLastCorrect, at_index. rewrite last_lookup.
  destruct (answers s) as [|a l]; [done|].
  replace (Z.of_nat (length (a :: l)) - 1) with (Z.of_nat (length l))
    by (simpl length; lia).
  destruct (Z.ltb_spec (Z.of_nat (length l)) 0); [lia|].
  by rewrite Nat2Z.id.
Qed.

(** X4.  The banner of a submitted question ([isLastCorrect]) and the
    colouring of its blank and options ([selectedOptionId ===
    correctOptionId]) agree in every reachable state in which an answer is
    recorded: the last answer then is the one for the question on screen and
    the selection shown.  When the submitted flag survived a filter change,
    which cleared the answers, the banner says wrong whatever is selected. *)
Theorem feedback_consistent (questions : list Question) (s : State) :
  reachable questions s -> isSubmitted s = true ->
  (answers s <> [] -> isLastCorrect s = selectionIsCorrect s)
  /\ (answers s = [] -> isLastCorrect s = false)
  /\ (forall s0, reachable questions s0 -> offered questions s0 ClickSubmit = true ->
        s = step questions s0 ClickSubmit ->
        answers s <> [] /\ isLastCorrect s = selectionIsCorrect s0).
Proof.
  intros Hr Hsub.
  pose proof (reachable_SessionInv _ _ Hr) as [_ _ _ _ Hfb].
  assert (Hagree : answers s <> [] -> isLastCorrect s = selectionIsCorrect s).
  { intros Hne. destruct (Hfb Hsub Hne) as (q & selected & Hq & Hsel & Hlast).
    rewrite isLastCorrect_last, Hlast. unfold selectionIsCorrect.
    by rewrite Hsel, Hq. }
  split; [done|]. split.
  - intros Ha. by rewrite isLastCorrect_last, Ha.
  - intros s0 Hr0 Hoff Hs.
    pose proof (reachable_Inv _ _ Hr0) as [Hnn Hidx _ _ _ _ _ _].
    pose proof Hoff as Hoff'. decode_offered Hoff'. view_facts.
    destruct (at_index_is_Some (filteredQuestions s0) (currentIndex s0)) as [q Hq].
    { fold (total s0). lia. }
    fold (currentQuestion s0) in Hq.
    destruct (selectedOptionId s0) as [selected|] eqn:Hsel; [|done].
    assert (Hh : handleSubmit s0 = s0 |> setAnswers (answers s0 ++
              [{| questionId := q_id q; selectedOption := selected;
                  isCorrect := String.eqb selected (correctOptionId q) |}])
              |> setIsSubmitted true).
    { unfold handleSubmit. rewrite Hsel, Hq.
      match goal with H : truthy_id _ = true |- _ => by rewrite H end. }
    assert (Hstep : s = handleSubmit s0).
    { rewrite Hs. apply step_handle; [done|]. cbn [handle]. rewrite Hh.
      by apply (timerEffect_after s0); [apply (reachable_settled questions)|..]. }
    assert (Hne : answers s <> []).
    { rewrite Hstep, Hh. simpl. by destruct (answers s0). }
    split; [done|]. rewrite (Hagree Hne), Hstep, Hh.
    unfold selectionIsCorrect, currentQuestion. simpl.
    change (filteredQuestions _) with (filteredQuestions s0).
    fold (currentQuestion s0). by rewrite Hsel, Hq.
Qed.

(** A right answer is submitted; then the category select is changed and the
    banner turns to wrong while the same right option stays selected. *)
Lemma feedback_consistent_witness :
  let qs := mixedBank in
  let s := run qs (initial qs keepOrder) [ClickStart 0; ClickOption "a"; ClickSubmit] in
  let s' := step qs s (SelectDifficulty (Only Advanced)) in
  isLastCorrect s = true /\ selectionIsCorrect s = true
  /\ isSubmitted s' = true /\ selectionIsCorrect s' = true /\ isLastCorrect s' = false.
Proof.
  intros qs s s'.
  assert (Hr : reachable qs s).
  { apply reachable_run. constructor. apply in_range_keepOrder. }
  assert (Hr' : reachable qs s') by (by constructor).
  destruct (feedback_consistent qs s Hr) as (Hagree & _ & _); [vm_compute; reflexivity|].
  destruct (feedback_consistent qs s' Hr') as (_ & Hwrong & _); [vm_compute; reflexivity|].
  split; [rewrite Hagree; [vm_compute; reflexivity | vm_compute; discriminate]|].
  split; [vm_compute; reflexivity|]. split; [vm_compute; reflexivity|].
  split; [vm_compute; reflexivity|]. apply Hwrong. vm_compute; reflexivity.
Defined.

(** ** Selecting an option *)

Lemma step_option (questions : list Question) (s : State) (optionId : string) :
  reachable questions s -> offered questions s (ClickOption optionId) = true ->
  step questions s (ClickOption optionId) = s |> setSelectedOptionId (Some optionId).
Proof.
  intros Hr Hoff. pose proof Hoff as Hoff'. decode_offered Hoff'. view_facts.
  assert (Hh : handleOptionClick optionId s = s |> setSelectedOptionId (Some optionId)).
  { unfold handleOptionClick.
    by match goal with H : isSubmitted s = false |- _ => rewrite H end. }
  rewrite (step_handle _ _ _ Hoff); cbn [handle]; rewrite Hh; [done|].
  by apply (timerEffect_after s); [apply (reachable_settled questions)|..].
Qed.

(** X5.  Before a question is submitted the selection can be changed at
    will and only the last one counts: clicking option [a] and then option
    [b] leaves the state that clicking [b] alone leaves, no click on an
    option records an answer, and once the question is submitted
    [handleOptionClick] changes nothing. *)
Theorem last_selection_counts (questions : list Question) (s : State) (a b : string) :
  reachable questions s ->
  offered questions s (ClickOption a) = true ->
  offered questions s (ClickOption b) = true ->
  run questions s [ClickOption a; ClickOption b] = step questions s (ClickOption b)
  /\ run questions s [ClickOption a; ClickOption b; ClickSubmit]
     = run questions s [ClickOption b; ClickSubmit]
  /\ answers (run questions s [ClickOption a; ClickOption b]) = answers s
  /\ (forall s', isSubmitted s' = true -> handleOptionClick a s' = s').
Proof.
  intros Hr Ha Hb.
  assert (Hab : run questions s [ClickOption a; ClickOption b]
                = step questions s (ClickOption b)).
  { rewrite !run_cons. simpl run.
    rewrite (step_option questions s a Hr Ha), (step_option questions s b Hr Hb).
    rewrite step_option.
    - done.
    - rewrite <- (step_option questions s a Hr Ha). by constructor.
    - exact Hb. }
  split; [done|]. split.
  - change [ClickOption a; ClickOption b; ClickSubmit]
      with ([ClickOption a; ClickOption b] ++ [ClickSubmit]).
    unfold run in *. by rewrite foldl_app, Hab.
  - split.
    + rewrite Hab, (step_option questions s b Hr Hb). done.
    + intros s' Hsub. unfold handleOptionClick. by rewrite Hsub.
Qed.

(** The learner first picks the wrong option, then the right one. *)
Lemma last_selection_counts_witness :
  let qs := demoBank 2 in
  let s := step qs (initial qs keepOrder) (ClickStart 0) in
  let s' := run qs s [ClickOption "b"; ClickOption "a"; ClickSubmit] in
  answers s' = [{| questionId := 1; selectedOption := "a"; isCorrect := true |}].
Proof.
  intros qs s s'.
  assert (Hr : reachable qs s).
  { constructor. constructor. apply in_range_keepOrder. }
  destruct (last_selection_counts qs s "b" "a" Hr) as (_ & Heq & _);
    [vm_compute; reflexivity | vm_compute; reflexivity |].
  subst s'. rewrite Heq. vm_compute; reflexivity.
Defined.

(** ** The remaining time *)

(** X6.  In every reachable state a remaining time is only set in a started
    session with a configured timer, and lies between 0 and the configured
    duration, which is 120, 300 or 600; a session without timer has no
    remaining time, shows no timer card and gets no tick. *)
Theorem remaining_time_bounds (questions : list Question) (s : State) :
  reachable questions s ->
  (forall t, timeRemaining s = Some t ->
     isStarted s = true
     /\ exists d, timerDuration s = Some d /\ d ∈ [120; 300; 600] /\ 0 <= t <= d)
  /\ (timerDuration s = None ->
      timeRemaining s = None /\ timerCard s = None /\ step questions s Tick = s)
  /\ (timeRemaining s = Some 0 -> view s = ResultsView).
Proof.
  intros Hr.
  pose proof (reachable_Inv _ _ Hr) as [_ _ _ _ _ Htimer Htime _].
  pose proof (reachable_SessionInv _ _ Hr) as [_ _ Hbound _ _].
  split; [|split].
  - intros t Ht. destruct (Hbound t Ht) as (Hst & d & Hd & Hle).
    split; [done|]. exists d. split; [done|]. split; [|split; [by apply Htime|done]].
    rewrite Hd in Htimer. unfold timerChoices in Htimer.
    rewrite !elem_of_cons, elem_of_nil in Htimer. rewrite !elem_of_cons.
    destruct Htimer as [?|[?|[?|[?|[]]]]]; simplify_eq; auto.
  - intros Hnone.
    assert (Hn : timeRemaining s = None).
    { destruct (timeRemaining s) as [t|] eqn:Ht; [|done].
      destruct (Hbound t eq_refl) as (_ & d & Hd & _). congruence. }
    split; [done|]. split; [unfold timerCard; by rewrite Hn|].
    apply tick_idle. unfold timerRunning. rewrite Hn. by rewrite andb_false_r.
  - intros H0. destruct (Hbound 0 H0) as (Hst & _).
    pose proof (reachable_settled _ _ Hr H0) as Hf.
    unfold view. by rewrite Hst, Hf.
Qed.

(** Seventy seconds into a two-minute session. *)
Lemma remaining_time_bounds_witness :
  let qs := demoBank 2 in
  let s := run qs (initial qs keepOrder)
             ([ClickTimer (Some 120); ClickStart 0] ++ replicate 70 Tick) in
  timeRemaining s = Some 50 /\ timerCard s = Some "0:50"
  /\ exists d, timerDuration s = Some d /\ 0 <= 50 <= d.
Proof.
  intros qs s.
  assert (Hr : reachable qs s).
  { apply reachable_run. constructor. apply in_range_keepOrder. }
  destruct (remaining_time_bounds qs s Hr) as (Hb & _).
  destruct (Hb 50) as (_ & d & Hd & _ & Hle); [vm_compute; reflexivity|].
  split; [vm_compute; reflexivity|]. split; [vm_compute; reflexivity|].
  exists d. split; [exact Hd | exact Hle].
Defined.

(** ** The chart of the results *)

(** X7.  The two values of the pie chart are never negative and add up to
    the size of the filtered set; the value shown as wrong counts the wrong
    answers and also every question of the filtered set without an answer
    (skipped after a filter change, or cut off by the timer). *)
Theorem chart_values (questions : list Question) (s : State) :
  reachable questions s ->
  let wrongAnswers := length (List.filter (fun a => negb (isCorrect a)) (answers s)) in
  let unanswered := (total s - length (answers s))%nat in
  0 <= fst (chartData s) /\ 0 <= snd (chartData s)
  /\ fst (chartData s) + snd (chartData s) = Z.of_nat (total s)
  /\ snd (chartData s) = Z.of_nat (wrongAnswers + unanswered).
Proof.
  intros Hr wrongAnswers unanswered.
  pose proof (reachable_Inv _ _ Hr) as [_ _ Hans _ _ _ _ _].
  pose proof (filter_split_length isCorrect (answers s)) as Hsplit.
  pose proof (filter_length_le isCorrect (answers s)) as Hle.
  unfold chartData, score. subst wrongAnswers unanswered. simpl. lia.
Qed.

(** The two-minute timer runs out on the second of three questions, after
    one right answer. *)
Lemma chart_values_witness :
  let qs := demoBank 3 in
  let s := run qs (initial qs keepOrder)
             ([ClickTimer (Some 120); ClickStart 0] ++ answerWith "a"
                ++ [ClickOption "a"] ++ replicate 120 Tick) in
  view s = ResultsView /\ chartData s = (1, 2)
  /\ snd (chartData s) = Z.of_nat (0 + 2).
Proof.
  intros qs s.
  assert (Hr : reachable qs s).
  { apply reachable_run. constructor. apply in_range_keepOrder. }
  destruct (chart_values qs s Hr) as (_ & _ & _ & Hwrong).
  split; [vm_compute; reflexivity|]. split; [vm_compute; reflexivity|].
  rewrite Hwrong. vm_compute; reflexivity.
Defined.

(** ** The filtered set *)

(** X8.  A question is in the filtered set exactly when it is in the working
    set, its difficulty is the one chosen or the difficulty menu is on the
    wildcard, and its category is the one chosen or the category menu is on
    the wildcard; the filtered set lists these questions in the order of the
    working set; with both menus on the wildcard it is the working set; and
    it never has more than 20 questions. *)
Theorem filteredQuestions_spec (questions : list Question) (s : State) :
  (forall q, q ∈ filteredQuestions s <->
     q ∈ allQuestions s
     /\ (filterDifficulty s = All \/ filterDifficulty s = Only (difficulty q))
     /\ (filterCategory s = All \/ filterCategory s = Only (category q)))
  /\ (forall d q, filterDifficulty s = Only d -> filterCategory s = All ->
        q ∈ filteredQuestions s <-> q ∈ allQuestions s /\ difficulty q = d)
  /\ (forall c q, filterDifficulty s = All -> filterCategory s = Only c ->
        q ∈ filteredQuestions s <-> q ∈ allQuestions s /\ category q = c)
  /\ (forall d c q, filterDifficulty s = Only d -> filterCategory s = Only c ->
        q ∈ filteredQuestions s <->
        q ∈ allQuestions s /\ difficulty q = d /\ category q = c)
  /\ filteredQuestions s `sublist_of` allQuestions s
  /\ (filterDifficulty s = All -> filterCategory s = All ->
      filteredQuestions s = allQuestions s)
  /\ (reachable questions s -> (total s <= length (allQuestions s) <= 20)%nat).
Proof.
  assert (Hmatch : forall A `{EqDecision A} (f : FilterOf A) (x : A),
            matches f x = true <-> f = All \/ f = Only x).
  { intros A ? [|a] x; simpl; [by intuition|].
    rewrite bool_decide_eq_true. split; [intros ->; by right|].
    intros [|[= ->]]; done. }
  assert (Hmem : forall q, q ∈ filteredQuestions s <->
     q ∈ allQuestions s
     /\ (filterDifficulty s = All \/ filterDifficulty s = Only (difficulty q))
     /\ (filterCategory s = All \/ filterCategory s = Only (category q))).
  { intros q. unfold filteredQuestions.
    rewrite !list_elem_of_In, filter_In, andb_true_iff, !Hmatch. done. }
  split; [done|]. split; [|split; [|split; [|split; [|split]]]].
  - intros d q Hd Hc. rewrite Hmem, Hd, Hc. split.
    + intros (Hq & [|[= ->]] & _); done.
    + intros [Hq ->]. split; [done|]. split; [by right|by left].
  - intros c q Hd Hc. rewrite Hmem, Hd, Hc. split.
    + intros (Hq & _ & [|[= ->]]); done.
    + intros [Hq ->]. split; [done|]. split; [by left|by right].
  - intros d c q Hd Hc. rewrite Hmem, Hd, Hc. split.
    + intros (Hq & [|[= ->]] & [|[= ->]]); done.
    + intros (Hq & -> & ->). split; [done|]. split; by right.
  - apply filter_sublist.
  - intros Hd Hc. unfold filteredQuestions. rewrite Hd, Hc. simpl. apply filter_true.
  - intros Hr. split; [apply filter_length_le|].
    destruct (reachable_Inv _ _ Hr) as [_ _ _ _ _ _ _ (d & _ & ->)].
    rewrite sample_length. lia.
Qed.

(** Of one question per difficulty only the intermediate one is shown, and
    it is shown. *)
Lemma filteredQuestions_spec_witness :
  let qs := mixedBank in
  let s := run qs (initial qs keepOrder)
             [ClickDifficulty (Only Intermediate); ClickStart 0] in
  map q_id (filteredQuestions s) = [2]
  /\ demoQuestion Intermediate Tense 2 ∈ filteredQuestions s
  /\ forall q, q ∈ filteredQuestions s -> difficulty q = Intermediate.
Proof.
  intros qs s.
  destruct (filteredQuestions_spec qs s) as (_ & Hd & _).
  assert (Hfd : filterDifficulty s = Only Intermediate) by (vm_compute; reflexivity).
  assert (Hfc : filterCategory s = All) by (vm_compute; reflexivity).
  split; [vm_compute; reflexivity|]. split.
  - apply (Hd Intermediate _ Hfd Hfc). split; [|reflexivity].
    assert (Hall : allQuestions s = mixedBank) by (vm_compute; reflexivity).
    rewrite Hall. unfold mixedBank. apply list_elem_of_further, list_elem_of_here.
  - intros q Hq. by apply (Hd Intermediate _ Hfd Hfc) in Hq as [_ Hq].
Defined.

(** ** No question twice *)

(** X9.  When the bank has no repeated question, no question is repeated in
    the working set of a reachable state nor in its filtered set; and when
    the bank has at most 20 questions the working set is a permutation of the
    whole bank. *)
Theorem working_set_no_repeats (questions : list Question) (s : State) :
  reachable questions s ->
  (NoDup questions -> NoDup (allQuestions s) /\ NoDup (filteredQuestions s))
  /\ ((length questions <= 20)%nat -> allQuestions s ≡ₚ questions).
Proof.
  intros Hr. destruct (reachable_Inv _ _ Hr) as [_ _ _ _ _ _ _ (d & Hd & Hs)].
  split.
  - intros Hnd.
    assert (Hall : NoDup (allQuestions s)).
    { rewrite Hs. unfold sample.
      apply (sublist_NoDup _ (shuffleArray d questions)); [|apply sublist_take].
      unfold shuffleArray. by rewrite shuffle_loop_perm. }
    split; [done|].
    apply (sublist_NoDup _ (allQuestions s)); [done|apply filter_sublist].
  - intros Hlen. rewrite Hs. unfold sample.
    rewrite take_ge by (rewrite shuffleArray_length; lia).
    apply shuffle_loop_perm.
Qed.

(** Three questions drawn with [j = 0] every time. *)
Lemma working_set_no_repeats_witness :
  let s := initial mixedBank pickFirst in
  map q_id (allQuestions s) = [2; 3; 1]
  /\ NoDup (allQuestions s) /\ allQuestions s ≡ₚ mixedBank.
Proof.
  intros s.
  assert (Hr : reachable mixedBank s).
  { constructor. apply in_range_pickFirst. }
  destruct (working_set_no_repeats mixedBank s Hr) as (Hnd & Hperm).
  split; [vm_compute; reflexivity|]. split.
  - apply Hnd. unfold mixedBank.
    repeat constructor; rewrite ?elem_of_cons, ?elem_of_nil;
      intros H; repeat destruct H as [H|H]; try discriminate H; done.
  - apply Hperm. vm_compute. lia.
Defined.

(** ** Percentage *)

Lemma percentageOf_table :
  forallb (fun t => forallb (fun sc =>
      Bool.eqb (percentageOf sc t =? 100) (sc =? t)%nat
      && Bool.eqb (percentageOf sc t =? 0) (sc =? 0)%nat
      && forallb (fun sc' => percentageOf sc' t <=? percentageOf sc t) (seq 0 (S sc)))
    (seq 0 (S t))) (seq 1 20) = true.
Proof. vm_compute. reflexivity. Qed.

Lemma percentageOf_facts (sc t : nat) :
  (sc <= t)%nat -> (1 <= t <= 20)%nat ->
  (percentageOf sc t = 100 <-> sc = t)
  /\ (percentageOf sc t = 0 <-> sc = O)
  /\ (forall sc', (sc' <= sc)%nat -> percentageOf sc' t <= percentageOf sc t).
Proof.
  intros Hsc Ht. pose proof percentageOf_table as Htab.
  rewrite forallb_forall in Htab. specialize (Htab t).
  rewrite forallb_forall in Htab. specialize (Htab (ltac:(apply in_seq; lia)) sc).
  specialize (Htab (ltac:(apply in_seq; lia))).
  apply andb_prop in Htab as [[H100 H0]%andb_prop Hmono].
  apply Bool.eqb_prop in H100, H0. split; [|split].
  - rewrite <- Z.eqb_eq, H100. apply Nat.eqb_eq.
  - rewrite <- Z.eqb_eq, H0. apply Nat.eqb_eq.
  - intros sc' Hsc'. rewrite forallb_forall in Hmono.
    apply Z.leb_le, Hmono, in_seq. lia.
Qed.

(** X10.  In every reachable state with questions to show, the percentage
    is 100 exactly when every question of the filtered set has a correct
    answer, so the text for the perfect score is shown for no other result;
    it is 0 exactly when no answer is correct; and a further correct answer
    never lowers it. *)
Theorem percentage_extremes (questions : list Question) (s : State) :
  reachable questions s -> (0 < total s)%nat ->
  (percentage s = 100 <-> score s = total s)
  /\ (getDetailedEvaluation (percentage s) = evaluation100 <-> score s = total s)
  /\ (percentage s = 0 <-> score s = O)
  /\ (forall sc, (sc <= score s)%nat -> percentageOf sc (total s) <= percentage s).
Proof.
  intros Hr Hpos.
  pose proof (total_le_20 _ _ Hr) as H20.
  assert (Hle : (score s <= total s)%nat).
  { destruct (reachable_Inv _ _ Hr) as [_ _ H3 _ _ _ _ _].
    unfold score. etransitivity; [apply filter_length_le|done]. }
  destruct (percentageOf_facts (score s) (total s)) as (H100 & H0 & Hmono);
    [done|lia|].
  fold (percentage s) in H100, H0, Hmono.
  destruct (percentage_reachable _ _ Hr) as [_ Hrange].
  split; [done|]. split; [|split; [done|done]].
  rewrite <- H100. split.
  - intros He. destruct (inTier_exists _ Hrange) as [t Ht].
    rewrite (getDetailedEvaluation_inTier _ _ Ht) in He.
    apply (tierText_inj t Tier100) in He. subst t. exact Ht.
  - intros ->. done.
Qed.

(** Two of two right, and one of two. *)
Lemma percentage_extremes_witness :
  let qs := demoBank 2 in
  let s := run qs (initial qs keepOrder) (ClickStart 0 :: repeatEvents 2 (answerWith "a")) in
  let s' := run qs (initial qs keepOrder)
              (ClickStart 0 :: answerWith "a" ++ answerWith "b") in
  percentage s = 100 /\ percentage s' = 50
  /\ getDetailedEvaluation (percentage s') <> evaluation100.
Proof.
  intros qs s s'.
  assert (Hr : reachable qs s).
  { apply reachable_run. constructor. apply in_range_keepOrder. }
  assert (Hr' : reachable qs s').
  { apply reachable_run. constructor. apply in_range_keepOrder. }
  destruct (percentage_extremes qs s Hr) as (H100 & _); [vm_compute; lia|].
  destruct (percentage_extremes qs s' Hr') as (_ & Hev & _); [vm_compute; lia|].
  split; [apply H100; vm_compute; reflexivity|].
  split; [vm_compute; reflexivity|].
  intros He. apply Hev in He. vm_compute in He. discriminate He.
Defined.

(** ** [formatTime] *)

Lemma string_length_app (s1 s2 : string) :
  String.length (s1 +:+ s2) = (String.length s1 + String.length s2)%nat.
Proof. induction s1 as [|c s1 IH]; simpl; [done|]. by rewrite IH. Qed.

Lemma string_app_inj_suffix (s1 s2 t1 t2 : string) :
  String.length t1 = String.length t2 -> s1 +:+ t1 = s2 +:+ t2 -> s1 = s2 /\ t1 = t2.
Proof.
  intros Hlen. revert s2. induction s1 as [|c s1 IH]; intros [|c' s2] Heq; simpl in Heq.
  - done.
  - apply (f_equal String.length) in Heq.
    rewrite !string_length_app in Heq. simpl in Heq. lia.
  - apply (f_equal String.length) in Heq.
    rewrite !string_length_app in Heq. simpl in Heq. lia.
  - injection Heq as -> Heq. destruct (IH _ Heq) as [-> ->]. done.
Qed.

(** The seconds field of the sixty possible remainders. *)
Lemma seconds_field_table :
  forallb (fun k =>
      (String.length (padStart 2 "0" (pretty k)) =? 2)%nat
      && String.eqb (padStart 2 "0" (pretty k))
           (if k <? 10 then "0" +:+ pretty k else pretty k)
      && forallb (fun k' =>
           Bool.eqb (String.eqb (padStart 2 "0" (pretty k)) (padStart 2 "0" (pretty k')))
                    (k =? k'))
         (seqZ 0 60))
    (seqZ 0 60) = true.
Proof. vm_compute. reflexivity. Qed.

Lemma seconds_field (k : Z) :
  0 <= k < 60 ->
  String.length (padStart 2 "0" (pretty k)) = 2%nat
  /\ padStart 2 "0" (pretty k) = (if k <? 10 then "0" +:+ pretty k else pretty k)
  /\ forall k', 0 <= k' < 60 ->
       padStart 2 "0" (pretty k) = padStart 2 "0" (pretty k') -> k = k'.
Proof.
  intros Hk. pose proof seconds_field_table as Htab.
  rewrite forallb_forall in Htab. specialize (Htab k).
  assert (Hin : forall z, 0 <= z < 60 -> In z (seqZ 0 60)).
  { intros z Hz. apply list_elem_of_In, elem_of_seqZ. lia. }
  apply andb_prop in Htab as [[Hlen Hshape]%andb_prop Hinj]; [|by apply Hin].
  split; [by apply Nat.eqb_eq|]. split; [by apply String.eqb_eq|].
  intros k' Hk' Heq. rewrite forallb_forall in Hinj.
  specialize (Hinj k' (Hin k' Hk')). apply Bool.eqb_prop in Hinj.
  apply Z.eqb_eq. rewrite <- Hinj. by apply String.eqb_eq.
Qed.

(** On the times the timer card can show, the quotient of the doubles,
    floored, is the integer quotient. *)
Lemma minutes_table :
  forallb (fun k => Math_floor (number (Z.to_nat k) / number 60) =? k / 60)
    (seqZ 0 601) = true.
Proof. vm_compute. reflexivity. Qed.

(** X11.  For a time that is not negative (an integer below 2^53),
    [formatTime] prints the minutes in decimal, a colon and the seconds below
    60 on exactly two digits, with a leading zero below 10; two different
    times are never printed the same; and up to the longest timer, 600
    seconds, the minutes are what [Math.floor(seconds / 60)] gives in double
    arithmetic. *)
Theorem formatTime_spec (a b : Z) :
  0 <= a < 2 ^ 53 -> 0 <= b < 2 ^ 53 ->
  formatTime a
  = pretty (a / 60) +:+ ":"
      +:+ (if a mod 60 <? 10 then "0" +:+ pretty (a mod 60) else pretty (a mod 60))
  /\ String.length (formatTime a) = (String.length (pretty (a / 60)%Z) + 3)%nat
  /\ (formatTime a = formatTime b -> a = b)
  /\ (a <= 600 -> Math_floor (number (Z.to_nat a) / number 60) = a / 60).
Proof.
  intros [Ha _] [Hb _].
  assert (Hrem : forall z, 0 <= z -> Z.rem z 60 = z mod 60 /\ 0 <= z mod 60 < 60).
  { intros z Hz. split; [apply Z.rem_mod_nonneg; lia | apply Z.mod_pos_bound; lia]. }
  destruct (Hrem a Ha) as [Hra Hma]. destruct (Hrem b Hb) as [Hrb Hmb].
  destruct (seconds_field _ Hma) as (Hlen & Hshape & Hinj).
  destruct (seconds_field _ Hmb) as (Hlen' & _ & _).
  unfold formatTime. rewrite Hra, Hrb. split; [by rewrite Hshape|].
  split; [|split].
  - rewrite !string_length_app, Hlen. simpl. lia.
  - intros Heq. apply string_app_inj_suffix in Heq as [Hmin Hsec].
    + apply (inj pretty) in Hmin. injection Hsec as Hsec.
      apply Hinj in Hsec; [|done].
      rewrite (Z.div_mod a 60), (Z.div_mod b 60) by lia. congruence.
    + by rewrite !string_length_app, Hlen, Hlen'.
  - intros Hle. pose proof minutes_table as Htab.
    rewrite forallb_forall in Htab. apply Z.eqb_eq, Htab.
    apply list_elem_of_In, elem_of_seqZ. lia.
Qed.

(** Sixty-five seconds and sixty-two minutes five. *)
Lemma formatTime_spec_witness :
  formatTime 65 = "1:05" /\ formatTime 3725 = "62:05"
  /\ String.length (formatTime 3725) = 5%nat
  /\ (formatTime 65 = formatTime 3725 -> False)
  /\ Math_floor (number 65 / number 60) = 1.
Proof.
  destruct (formatTime_spec 65 3725) as (_ & _ & Hinj & Hfloat); [lia|lia|].
  destruct (formatTime_spec 3725 65) as (_ & Hlen & _); [lia|lia|].
  split; [vm_compute; reflexivity|]. split; [vm_compute; reflexivity|].
  split; [rewrite Hlen; vm_compute; reflexivity|].
  split; [intros Heq; apply Hinj in Heq; discriminate Heq|].
  apply Hfloat. lia.
Defined.

(** ** A complete session *)

Lemma step_next (questions : list Question) (s : State) :
  reachable questions s -> offered questions s ClickNext = true ->
  step questions s ClickNext = handleNext s.
Proof.
  intros Hr Hoff. apply step_handle; [done|]. cbn [handle].
  pose proof Hoff as Hoff'. simpl in Hoff'.
  apply andb_prop in Hoff' as [Hv%bool_decide_eq_true Hsub].
  pose proof (view_question s Hv) as (Hst & Hnf & Hpos).
  unfold handleNext. destruct (_ <? _).
  - by apply (timerEffect_after s); [apply (reachable_settled questions)|..].
  - by apply timerEffect_finished.
Qed.

Lemma view_question_intro (s : State) :
  isStarted s = true -> isFinished s = false -> filteredQuestions s <> [] ->
  view s = QuestionView.
Proof.
  intros Hst Hnf Hne. unfold view. rewrite Hst, Hnf. simpl.
  destruct (filteredQuestions s); [done|done].
Qed.

(** Choosing an offered option and submitting it. *)
Lemma answer_one (questions : list Question) (s : State) (q : Question) (c : string) :
  reachable questions s -> view s = QuestionView -> isSubmitted s = false ->
  currentQuestion s = Some q ->
  c <> EmptyString -> c ∈ map opt_id (options q) ->
  run questions s [ClickOption c; ClickSubmit]
  = s |> setSelectedOptionId (Some c)
      |> setAnswers (answers s ++
           [{| questionId := q_id q; selectedOption := c;
               isCorrect := String.eqb c (correctOptionId q) |}])
      |> setIsSubmitted true.
Proof.
  intros Hr Hv Hsub Hq Hc Hin.
  pose proof (view_question s Hv) as (Hst & Hnf & Hpos).
  assert (Hoff : offered questions s (ClickOption c) = true).
  { simpl. unfold offeredOptionIds. rewrite Hq, Hsub.
    by rewrite !bool_decide_eq_true_2. }
  rewrite run_cons, (step_option questions s c Hr Hoff).
  set (s1 := s |> setSelectedOptionId (Some c)).
  assert (Hr1 : reachable questions s1).
  { unfold s1. rewrite <- (step_option questions s c Hr Hoff). by constructor. }
  assert (Htr : truthy_id (Some c) = true).
  { simpl. by destruct (String.eqb_spec c EmptyString). }
  assert (Hoff1 : offered questions s1 ClickSubmit = true).
  { cbn [offered]. change (view s1) with (view s).
    change (isSubmitted s1) with (isSubmitted s).
    change (selectedOptionId s1) with (Some c).
    rewrite Hsub, Htr. by rewrite bool_decide_eq_true_2. }
  assert (Hh : handleSubmit s1 = s1 |> setAnswers (answers s ++
           [{| questionId := q_id q; selectedOption := c;
               isCorrect := String.eqb c (correctOptionId q) |}])
      |> setIsSubmitted true).
  { unfold handleSubmit. change (selectedOptionId s1) with (Some c).
    change (currentQuestion s1) with (currentQuestion s). by rewrite Htr, Hq. }
  simpl run. rewrite (step_handle _ _ _ Hoff1); cbn [handle]; rewrite Hh; [done|].
  by apply (timerEffect_after s1); [apply (reachable_settled questions)|..].
Qed.

Lemma run_app (questions : list Question) (s : State) (es es' : list Event) :
  run questions s (es ++ es') = run questions (run questions s es) es'.
Proof. unfold run. apply foldl_app. Qed.

Lemma at_index_middle {A} (l1 l2 : list A) (x : A) :
  at_index (l1 ++ x :: l2) (Z.of_nat (length l1)) = Some x.
Proof.
  unfold at_index. destruct (Z.ltb_spec (Z.of_nat (length l1)) 0); [lia|].
  rewrite Nat2Z.id. apply list_lookup_middle. done.
Qed.

(** Answering the questions that are left, from the one on screen on. *)
Lemma answer_rest (questions : list Question) (choice : Question -> string)
    (rest : list Question) :
  forall (answered : list Question) (s : State),
  reachable questions s -> view s = QuestionView -> isSubmitted s = false ->
  filteredQuestions s = answered ++ rest ->
  currentIndex s = Z.of_nat (length answered) ->
  rest <> [] -> Forall (validChoice choice) rest ->
  let s' := run questions s (answerAll choice rest) in
  view s' = ResultsView
  /\ answers s' = answers s ++ map (recordedAnswer choice) rest
  /\ filteredQuestions s' = filteredQuestions s
  /\ currentIndex s' = Z.of_nat (length (filteredQuestions s)) - 1.
Proof.
  induction rest as [|q rest IH]; intros answered s Hr Hv Hsub Hfq Hidx Hne Hvalid; [done|].
  apply Forall_cons in Hvalid as [[Hc Hin] Hvalid].
  pose proof (view_question s Hv) as (Hst & Hnf & Hpos).
  assert (Hq : currentQuestion s = Some q).
  { unfold currentQuestion. rewrite Hfq, Hidx. apply at_index_middle. }
  cbn [answerAll flat_map]. unfold answerWith.
  change ([ClickOption (choice q); ClickSubmit; ClickNext] ++ flat_map _ rest)
    with ([ClickOption (choice q); ClickSubmit] ++ ClickNext :: answerAll choice rest).
  cbv zeta. rewrite run_app.
  pose proof (reachable_run questions s [ClickOption (choice q); ClickSubmit] Hr) as Hr2.
  rewrite (answer_one questions s q (choice q) Hr Hv Hsub Hq Hc Hin) in Hr2 |- *.
  set (s2 := s |> setSelectedOptionId (Some (choice q))
               |> setAnswers (answers s ++ _) |> setIsSubmitted true) in *.
  assert (Hoff2 : offered questions s2 ClickNext = true).
  { simpl. change (view s2) with (view s). by rewrite bool_decide_eq_true_2. }
  rewrite run_cons, (step_next questions s2 Hr2 Hoff2).
  pose proof (reachable_step questions s2 ClickNext Hr2) as Hr3.
  rewrite (step_next questions s2 Hr2 Hoff2) in Hr3.
  assert (Htotal : Z.of_nat (length (filteredQuestions s))
                   = Z.of_nat (length answered) + 1 + Z.of_nat (length rest)).
  { rewrite Hfq, length_app. simpl. lia. }
  destruct rest as [|q' rest'].
  - (* the last question *)
    assert (Hnext : handleNext s2 = s2 |> setIsFinished true).
    { unfold handleNext. change (filteredQuestions s2) with (filteredQuestions s).
      change (currentIndex s2) with (currentIndex s).
      destruct (Z.ltb_spec (currentIndex s) (Z.of_nat (length (filteredQuestions s)) - 1));
        [simpl in Htotal; lia|done]. }
    rewrite Hnext. cbn [answerAll flat_map run foldl].
    split; [unfold view; simpl; by rewrite Hst|].
    split; [done|]. split; [done|].
    change (currentIndex (setIsFinished true s2)) with (currentIndex s).
    simpl in Htotal. lia.
  - assert (Hnext : handleNext s2 = s2 |> setCurrentIndex (currentIndex s + 1)
                      |> setSelectedOptionId None |> setIsSubmitted false).
    { unfold handleNext. change (filteredQuestions s2) with (filteredQuestions s).
      change (currentIndex s2) with (currentIndex s).
      destruct (Z.ltb_spec (currentIndex s) (Z.of_nat (length (filteredQuestions s)) - 1));
        [done|simpl in Htotal; lia]. }
    rewrite Hnext in Hr3 |- *.
    set (s3 := s2 |> setCurrentIndex (currentIndex s + 1) |> setSelectedOptionId None
                  |> setIsSubmitted false) in *.
    assert (Hv3 : view s3 = QuestionView).
    { apply view_question_intro; [done|done|].
      change (filteredQuestions s3) with (filteredQuestions s). rewrite Hfq.
      by destruct answered. }
    assert (Hfq3 : filteredQuestions s3 = (answered ++ [q]) ++ q' :: rest').
    { change (filteredQuestions s3) with (filteredQuestions s).
      by rewrite Hfq, <- app_assoc. }
    assert (Hidx3 : currentIndex s3 = Z.of_nat (length (answered ++ [q]))).
    { unfold s3. simpl. rewrite length_app. simpl. lia. }
    destruct (IH (answered ++ [q]) s3 Hr3 Hv3 eq_refl Hfq3 Hidx3 ltac:(done) Hvalid)
      as (Hv' & Ha' & Hf' & Hi').
    + split; [exact Hv'|]. split.
      * rewrite Ha'. unfold s3, s2. simpl. by rewrite <- app_assoc.
      * split; [exact Hf'|]. exact Hi'.
Qed.

Lemma score_recorded (choice : Question -> string) (qs : list Question) :
  length (List.filter isCorrect (map (recordedAnswer choice) qs))
  = length (List.filter (fun q => String.eqb (choice q) (correctOptionId q)) qs).
Proof.
  induction qs as [|q qs IH]; simpl; [done|].
  destruct (String.eqb (choice q) (correctOptionId q)); simpl; by rewrite IH.
Qed.

(** X12.  A learner who starts from the home view and, question after
    question, clicks one of the options on screen, submits it and clicks
    next, ends on the results view with exactly one answer recorded per
    question of the filtered set, in the order of the questions, each with
    the option chosen and marked correct exactly when it is the question's
    correct option; the score is the number of questions answered with the
    correct option. *)
Theorem complete_session (questions : list Question) (choice : Question -> string)
    (s : State) (now : Z) :
  reachable questions s -> view s = HomeView -> filteredQuestions s <> [] ->
  Forall (validChoice choice) (filteredQuestions s) ->
  let s' := run questions s
              (ClickStart now :: answerAll choice (filteredQuestions s)) in
  view s' = ResultsView
  /\ answers s' = map (recordedAnswer choice) (filteredQuestions s)
  /\ map questionId (answers s') = map q_id (filteredQuestions s')
  /\ length (answers s') = total s'
  /\ score s'
     = length (List.filter (fun q => String.eqb (choice q) (correctOptionId q))
                 (filteredQuestions s)).
Proof.
  intros Hr Hv Hne Hvalid s'.
  destruct (start_from_home questions s now Hr Hv Hne)
    as (Heq & Hst & Hnf & Hvq & _ & _ & _ & Hframe).
  pose proof (reachable_Inv _ _ Hr) as [_ _ _ _ Hhome _ _ _].
  destruct (Hhome (view_home s Hv)) as (Hi & Ha & Hsub & _ & _).
  set (s0 := step questions s (ClickStart now)) in *.
  assert (Hfields : currentIndex s0 = 0 /\ answers s0 = [] /\ isSubmitted s0 = false
                    /\ filteredQuestions s0 = filteredQuestions s).
  { pose proof (f_equal currentIndex Hframe) as Hci.
    pose proof (f_equal answers Hframe) as Hca.
    pose proof (f_equal isSubmitted Hframe) as Hcs.
    pose proof (f_equal filteredQuestions Hframe) as Hcf.
    simpl in Hci, Hca, Hcs.
    change (filteredQuestions (_ (_ (_ s0)))) with (filteredQuestions s0) in Hcf.
    repeat split; congruence. }
  destruct Hfields as (Hi0 & Ha0 & Hsub0 & Hfq0).
  destruct (answer_rest questions choice (filteredQuestions s) [] s0)
    as (Hv' & Ha' & Hf' & _); try done.
  { by constructor. }
  subst s'. rewrite run_cons. fold s0.
  set (s' := run questions s0 (answerAll choice (filteredQuestions s))) in *.
  rewrite Ha0 in Ha'. simpl in Ha'.
  split; [done|]. split; [done|].
  assert (Hids : map questionId (answers s') = map q_id (filteredQuestions s')).
  { rewrite Ha', Hf', Hfq0, map_map. done. }
  split; [done|]. split.
  - unfold total. by rewrite <- (length_map q_id), <- Hids, length_map.
  - unfold score. rewrite Ha'. apply score_recorded.
Qed.

(** Three questions, the second one answered wrongly. *)
Lemma complete_session_witness :
  let qs := mixedBank in
  let choice := fun q : Question => if q_id q =? 2 then "c" else "a" in
  let s' := run qs (initial qs pickFirst)
              (ClickStart 0 :: answerAll choice (filteredQuestions (initial qs pickFirst))) in
  view s' = ResultsView
  /\ answers s'
     = [ {| questionId := 2; selectedOption := "c"; isCorrect := false |};
         {| questionId := 3; selectedOption := "a"; isCorrect := true |};
         {| questionId := 1; selectedOption := "a"; isCorrect := true |} ]
  /\ score s' = 2%nat /\ percentage s' = 67.
Proof.
  intros qs choice s'.
  destruct (complete_session qs choice (initial qs pickFirst) 0)
    as (Hv & Ha & _ & _ & Hscore).
  - constructor. apply in_range_pickFirst.
  - vm_compute; reflexivity.
  - vm_compute; discriminate.
  - assert (Hfq : filteredQuestions (initial qs pickFirst)
                  = [demoQuestion Intermediate Tense 2; demoQuestion Advanced Tense 3;
                     demoQuestion Beginner Tense 1]) by (vm_compute; reflexivity).
    rewrite Hfq.
    repeat (apply Forall_cons; split); [| | |by apply Forall_nil];
      (split; [vm_compute; discriminate|]); vm_compute;
      repeat (apply list_elem_of_here || apply list_elem_of_further).
  - fold s' in Hv, Ha, Hscore.
    split; [exact Hv|]. split; [rewrite Ha; vm_compute; reflexivity|].
    split; [rewrite Hscore; vm_compute; reflexivity|]. vm_compute; reflexivity.
Defined.

(** ** The answers are append-only *)

Lemma timerEffect_answers (s : State) : answers (timerEffect s) = answers s.
Proof. by destruct (timerEffect_cases s) as [->|(-> & _)]. Qed.

(** X13.  A recorded answer is never changed or removed one by one: an event
    either leaves the answers as they are, or (a submission) appends one
    answer for the question on screen, or (a filter select or the restart)
    clears them all; in particular no click on an option, no next and no tick
    touches them. *)
Theorem answers_append_only (questions : list Question) (s : State) (e : Event) :
  let s' := step questions s e in
  (clearsAnswers e = false -> answers s `prefix_of` answers s')
  /\ (clearsAnswers e = true -> answers s' = answers s \/ answers s' = [])
  /\ (e <> ClickSubmit -> clearsAnswers e = false -> answers s' = answers s)
  /\ (e = ClickSubmit ->
      answers s' = answers s
      \/ exists q selected,
           currentQuestion s = Some q /\ selectedOptionId s = Some selected
           /\ answers s' = answers s ++
                [{| questionId := q_id q; selectedOption := selected;
                    isCorrect := String.eqb selected (correctOptionId q) |}]).
Proof.
  intros s'. subst s'. unfold step.
  destruct (offered questions s e) eqn:Hoff.
  2:{ repeat split; intros; try done; by left. }
  rewrite timerEffect_answers.
  assert (Hother : e <> ClickSubmit -> clearsAnswers e = false ->
            answers (handle questions e s) = answers s).
  { intros Hne Hcl. destruct e; try done; simpl.
    - unfold handleStart. destruct (_ =? _)%nat; [done|]. by destruct (truthy_num _).
    - unfold handleOptionClick. by destruct (isSubmitted s).
    - unfold handleNext. by destruct (_ <? _). }
  assert (Hsubmit : e = ClickSubmit ->
      answers (handle questions e s) = answers s
      \/ exists q selected,
           currentQuestion s = Some q /\ selectedOptionId s = Some selected
           /\ answers (handle questions e s) = answers s ++
                [{| questionId := q_id q; selectedOption := selected;
                    isCorrect := String.eqb selected (correctOptionId q) |}]).
  { intros ->. simpl. unfold handleSubmit. destruct (negb _); [by left|].
    destruct (selectedOptionId s) as [selected|]; [|by left].
    destruct (currentQuestion s) as [q|]; [|by left].
    right. by exists q, selected. }
  split; [|split; [|split]]; try done.
  - intros Hcl.
    assert (e = ClickSubmit \/ e <> ClickSubmit) as [He|He]
      by (destruct e; first [by left | by right]).
    + destruct (Hsubmit He) as [->|(q & selected & _ & _ & ->)]; [done|].
      by apply prefix_app_r.
    + by rewrite Hother.
  - intros Hcl. right. by destruct e.
Qed.

(** A submission appends, a click on next keeps, a filter select clears. *)
Lemma answers_append_only_witness :
  let qs := demoBank 3 in
  let s := run qs (initial qs keepOrder) [ClickStart 0; ClickOption "b"] in
  let s1 := step qs s ClickSubmit in
  let s2 := step qs s1 ClickNext in
  let s3 := step qs s2 (SelectCategory All) in
  answers s `prefix_of` answers s1 /\ length (answers s1) = 1%nat
  /\ answers s2 = answers s1 /\ answers s3 = [].
Proof.
  intros qs s s1 s2 s3.
  destruct (answers_append_only qs s ClickSubmit) as (Hpre & _).
  destruct (answers_append_only qs s1 ClickNext) as (_ & _ & Hkeep & _).
  split; [by apply Hpre|]. split; [vm_compute; reflexivity|].
  split; [by apply Hkeep|]. vm_compute; reflexivity.
Defined.

(** ** The deadline *)

Lemma timerEffect_started (s : State) :
  isStarted (timerEffect s) = isStarted s
  /\ timeRemaining (timerEffect s) = timeRemaining s.
Proof. by destruct (timerEffect_cases s) as [->|(-> & _)]. Qed.

Lemma handle_started (questions : list Question) (s : State) (e : Event) :
  isStarted s = true -> offered questions s e = true ->
  (forall d, e <> ClickRestart d) -> e <> Tick ->
  isStarted (handle questions e s) = true
  /\ timeRemaining (handle questions e s) = timeRemaining s.
Proof.
  intros Hst Hoff Hne Hnt. destruct e; simpl; try done.
  - simpl in Hoff. apply andb_prop in Hoff as [Hv%bool_decide_eq_true _].
    apply view_home in Hv. congruence.
  - unfold handleOptionClick. by destruct (isSubmitted s).
  - unfold handleSubmit. destruct (negb _); [done|].
    by destruct (selectedOptionId s), (currentQuestion s).
  - unfold handleNext. by destruct (_ <? _).
  - by destruct (Hne d).
Qed.

Lemma step_running (questions : list Question) (s : State) (e : Event) (t : Z) :
  reachable questions s -> isStarted s = true -> isFinished s = false ->
  timeRemaining s = Some t -> (forall d, e <> ClickRestart d) ->
  0 < t
  /\ isStarted (step questions s e) = true
  /\ timeRemaining (step questions s e) = Some (if isTick e then t - 1 else t).
Proof.
  intros Hr Hst Hnf Ht Hne.
  assert (Hpos : 0 < t).
  { destruct (reachable_Inv _ _ Hr) as [_ _ _ _ _ _ Htime _].
    pose proof (Htime t Ht) as Hnn. pose proof (reachable_settled _ _ Hr) as Hset.
    destruct (decide (t = 0)) as [->|]; [|lia].
    rewrite (Hset Ht) in Hnf. discriminate. }
  split; [done|].
  assert (e = Tick \/ e <> Tick) as [->|Hnt]
    by (destruct e; first [by left | by right]).
  - rewrite (tick_step questions s t) by done. by simpl.
  - assert (Htick : isTick e = false) by (by destruct e).
    rewrite Htick. unfold step. destruct (offered questions s e) eqn:Hoff; [|done].
    destruct (timerEffect_started (handle questions e s)) as [-> ->].
    destruct (handle_started questions s e Hst Hoff Hne Hnt) as [-> ->]. done.
Qed.

(** X14.  Nothing the learner does postpones the deadline: in a started
    session with [t] seconds left, once [t] ticks have arrived the results
    are shown, whatever other events came in between (options, submissions,
    next, filter changes, resets of the filters). *)
Theorem timer_deadline (questions : list Question) (es : list Event) :
  forall (s : State) (t : Z),
  reachable questions s -> isStarted s = true -> timeRemaining s = Some t ->
  (forall e d, e ∈ es -> e <> ClickRestart d) ->
  t <= Z.of_nat (length (List.filter isTick es)) ->
  view (run questions s es) = ResultsView.
Proof.
  induction es as [|e es IH]; intros s t Hr Hst Ht Hne Hticks.
  - destruct (isFinished s) eqn:Hf; [unfold view; simpl; by rewrite Hst, Hf|].
    assert (Hnr : forall d, Tick <> ClickRestart d) by done.
    destruct (step_running questions s Tick t Hr Hst Hf Ht Hnr) as (Hpos & _).
    simpl in Hticks. lia.
  - destruct (isFinished s) eqn:Hf.
    + assert (Hv : view s = ResultsView) by (unfold view; by rewrite Hst, Hf).
      by rewrite results_stay.
    + assert (Hnr : forall d, e <> ClickRestart d) by (intros d; apply Hne; left).
      destruct (step_running questions s e t Hr Hst Hf Ht Hnr) as (Hpos & Hst' & Ht').
      rewrite run_cons. apply (IH _ _ (reachable_step _ _ e Hr) Hst' Ht').
      * intros e' d He'. apply Hne. by right.
      * simpl in Hticks. destruct (isTick e); simpl in Hticks; lia.
Qed.

(** The two-minute timer with a filter change and an answer in between. *)
Lemma timer_deadline_witness :
  let qs := demoBank 3 in
  let s := run qs (initial qs keepOrder) [ClickTimer (Some 120); ClickStart 0] in
  let es := replicate 60 Tick ++ [SelectCategory (Only Conjunction); ClickResetFilters]
            ++ answerWith "a" ++ replicate 60 Tick ++ [ClickOption "b"] in
  timeRemaining s = Some 120 /\ view (run qs s es) = ResultsView.
Proof.
  intros qs s es. split; [vm_compute; reflexivity|].
  apply (timer_deadline qs es s 120).
  - apply reachable_run. constructor. apply in_range_keepOrder.
  - vm_compute; reflexivity.
  - vm_compute; reflexivity.
  - intros e d He Heq. subst e. unfold es in He.
    rewrite !elem_of_app, !elem_of_replicate, !elem_of_cons, elem_of_nil in He.
    unfold answerWith in He. rewrite !elem_of_cons, elem_of_nil in He.
    repeat destruct He as [He|He]; try discriminate He; try done;
      destruct He; discriminate.
  - vm_compute. discriminate.
Defined.

(** ** Edge cases of the shuffle and of the bank *)

Lemma shuffle_loop_keepOrder {A} (i : nat) (l : list A) :
  shuffle_loop keepOrder i l = l.
Proof.
  induction i as [|i IH]; simpl; [done|].
  unfold keepOrder at 1. by rewrite swap_same.
Qed.

(** X15.  [shuffleArray] returns the empty array and an array of one element
    as they are without consulting a draw, returns any array as it is when
    every draw is [j = i], and moves an element drawn for the last position
    there for good: the last element of the result is the element the first
    iteration drew. *)
Theorem shuffleArray_edges {A} (d : draws) (x : A) (l : list A) :
  shuffleArray d ([] : list A) = []
  /\ shuffleArray d [x] = [x]
  /\ shuffleArray keepOrder l = l
  /\ (l <> [] -> in_range d (length l) ->
      last (shuffleArray d l) = l !! d (length l - 1)%nat).
Proof.
  split; [done|]. split; [done|]. split; [apply shuffle_loop_keepOrder|].
  intros Hne Hd.
  destruct (length l) as [|m] eqn:Hlen; [by destruct l|].
  rewrite (shuffleArray_unfold d l m Hlen) by done.
  replace (S m - 1)%nat with m by lia.
  destruct (drop_swap_last l m (d m) Hlen) as (y & Hy & ->).
  { apply Hd. lia. }
  by rewrite last_snoc.
Qed.

(** With [j = 0] drawn first, the first element ends up last. *)
Lemma shuffleArray_edges_witness :
  shuffleArray pickFirst [10; 20; 30]%nat = [20; 30; 10]%nat
  /\ last (shuffleArray pickFirst [10; 20; 30]%nat) = Some 10%nat.
Proof.
  destruct (shuffleArray_edges pickFirst 0%nat [10; 20; 30]%nat) as (_ & _ & _ & Hlast).
  split; [vm_compute; reflexivity|].
  rewrite Hlast; [reflexivity | discriminate | apply in_range_pickFirst].
Defined.

(** X16.  With an empty bank the session never leaves the home view: every
    reachable state has an empty working set and is not started, and the
    start button does nothing. *)
Theorem empty_bank_never_starts (s : State) (now : Z) :
  reachable [] s ->
  allQuestions s = [] /\ total s = O /\ isStarted s = false
  /\ view s = HomeView /\ step [] s (ClickStart now) = s.
Proof.
  intros Hr.
  destruct (reachable_Inv _ _ Hr) as [_ _ _ _ _ _ _ (d & _ & Hs)].
  pose proof (reachable_SessionInv _ _ Hr) as [Hsample _ _ _ _].
  assert (Hall : allQuestions s = []) by (by rewrite Hs).
  assert (Hfq : filteredQuestions s = []) by (by apply filteredQuestions_nil_sample).
  assert (Hst : isStarted s = false).
  { destruct (isStarted s); [by destruct Hsample|done]. }
  split; [done|]. split; [unfold total; by rewrite Hfq|]. split; [done|].
  split; [unfold view; by rewrite Hst|].
  unfold step. cbn [offered]. rewrite Hfq. simpl. by rewrite andb_false_r.
Qed.

(** Clicking around on an empty bank. *)
Lemma empty_bank_never_starts_witness :
  let s := run [] (initial [] keepOrder)
             [ClickDifficulty (Only Beginner); ClickTimer (Some 300); ClickStart 0; Tick] in
  view s = HomeView /\ timerDuration s = Some 300 /\ step [] s (ClickStart 1) = s.
Proof.
  intros s.
  destruct (empty_bank_never_starts s 1) as (_ & _ & _ & Hv & Hstart).
  { apply reachable_run. constructor. apply in_range_keepOrder. }
  split; [exact Hv|]. split; [vm_compute; reflexivity | exact Hstart].
Defined.
